(** * MCP chat client: the tool-call orchestration loop

    A shallow embedding of the command-line clients of the repository,
    [MCPClient] (index.js) and [FileSystemMCPClient] (src/file/client.js).
    Both classes carry the same tool adapter, the same [processQuery] and
    the same loop in [chatLoop]; they differ in the banner, in how the tool
    server is spawned and in [main], which are taken from
    [FileSystemMCPClient].

    The hosted chat model, the MCP session, the JSON built-ins and the
    process environment are collaborators of the code: they are the
    members of the classes [JSON] and [Collaborators].  A call to a
    collaborator takes the current [World] and returns either a value or a
    thrown JavaScript value, together with the next [World].  Every call
    to the chat endpoint and to the tool server is also recorded, with its
    arguments and its outcome, in the [calls] list of the client state, so
    that ordering properties can be stated. *)

From Stdlib Require Import String Ascii List ZArith Lia Bool DecimalString.
Import ListNotations.
Open Scope string_scope.
Open Scope list_scope.

(** ** Thrown values *)

(** What a JavaScript [throw] carries: an instance of [Error] (with its
    [name] and [message]), or any other value, of which only [String(v)]
    is observed by the code. *)
Inductive Thrown : Type :=
| ErrorObject (name message : string)
| OtherValue (text : string).

(** [error instanceof Error ? error.message : String(error)] *)
Definition error_text (error : Thrown) : string :=
  match error with
  | ErrorObject _ message => message
  | OtherValue text => text
  end.

(** [error.message] as [console.log] prints it: [undefined] when the thrown
    value is not an object with that property. *)
Definition error_message (error : Thrown) : string :=
  match error with
  | ErrorObject _ message => message
  | OtherValue _ => "undefined"
  end.

Definition Result (A : Type) : Type := (Thrown + A)%type.

(** The TypeError of reading [.message] of [response.choices[0]] when
    [choices] is empty. *)
Definition TypeError_undefined_message : Thrown :=
  ErrorObject "TypeError" "Cannot read properties of undefined (reading 'message')".

(** The TypeError of [this.tools.map] before [connectToServer] has run. *)
Definition TypeError_undefined_map : Thrown :=
  ErrorObject "TypeError" "Cannot read properties of undefined (reading 'map')".

(** ** Strings *)

Definition newline : string := String (ascii_of_nat 10) EmptyString.

(** [Array.prototype.join] on an array of strings. *)
Definition join (sep : string) (parts : list string) : string :=
  String.concat sep parts.

(** [String.prototype.toLowerCase], on the ASCII letters; the other bytes
    of a string are left as they are.  A string with a character outside
    ASCII does not lower-case to ["quit"], so the comparison in [chatLoop]
    is decided by this part. *)
Definition lower_ascii (c : ascii) : ascii :=
  let n := nat_of_ascii c in
  if (65 <=? n)%nat && (n <=? 90)%nat then ascii_of_nat (n + 32) else c.

Fixpoint toLowerCase (s : string) : string :=
  match s with
  | EmptyString => EmptyString
  | String c rest => String (lower_ascii c) (toLowerCase rest)
  end.

(** Truthiness of a [string | null | undefined] value. *)
Definition truthy (v : option string) : bool :=
  match v with
  | Some (String _ _) => true
  | _ => false
  end.

(** A present string, or nothing: the lines [if (x) finalText.push(x)]
    contributes. *)
Definition pushed (v : option string) : list string :=
  match v with
  | Some s => if truthy v then [s] else []
  | None => []
  end.

(** ** Collaborators: the JSON built-ins *)

(** JSON values and the two built-ins the code uses on them.
    [JSON_parse] throws a SyntaxError on a string that is not JSON. *)
Class JSON : Type := {
  json : Type;
  JSON_parse : string -> Result json;
  JSON_stringify : json -> string
}.

Section Data.

Context {J : JSON}.

(** ** Data model *)

(** A tool as the tool server advertises it ([listTools]). *)
Record Tool : Type := {
  tool_name : string;
  tool_description : option string;
  tool_inputSchema : json
}.

(** [{ name, description, parameters }] *)
Record FunctionSpec : Type := {
  fn_name : string;
  fn_description : option string;
  fn_parameters : json
}.

(** [{ type: "function", function: {...} }]: a tool in the calling
    convention of the chat endpoint. *)
Record CallableTool : Type := {
  type : string;
  function : FunctionSpec
}.

(** The [content] of a transcript message: the query text, or the content
    blocks of a tool result. *)
Inductive Content : Type :=
| Text (text : string)
| Blocks (blocks : list json).

Record Message : Type := {
  role : string;
  content : Content
}.

(** [toolCall.function]: the [arguments] are a string still to be parsed. *)
Record FunctionCall : Type := {
  call_name : string;
  call_arguments : string
}.

Record ToolCall : Type := {
  call_function : FunctionCall
}.

(** [choice.message]: [content] may be null, [tool_calls] may be absent. *)
Record AssistantMessage : Type := {
  reply_content : option string;
  tool_calls : option (list ToolCall)
}.

Record Choice : Type := {
  message : AssistantMessage
}.

(** The object [openai.chat.completions.create] resolves to. *)
Record ChatCompletion : Type := {
  choices : list Choice
}.

(** The argument of [openai.chat.completions.create]; [tools] is absent on
    the follow-up calls. *)
Record ChatRequest : Type := {
  model : string;
  max_tokens : Z;
  messages : list Message;
  tools : option (list CallableTool)
}.

(** What [mcp.callTool] resolves to: the content blocks and the flag by
    which the tool server signals that the tool failed. *)
Record CallToolResult : Type := {
  result_content : list json;
  isError : bool
}.

End Data.

(** ** Collaborators: the world outside

    The chat endpoint, the MCP session and the process environment.  Each
    call takes the current world and answers with a value or a thrown
    value, and the next world. *)
Class Collaborators {J : JSON} : Type := {
  World : Type;
  openai_chat_completions_create :
    ChatRequest -> World -> Result ChatCompletion * World;
  mcp_callTool : string -> json -> World -> Result CallToolResult * World;
  mcp_connect : list string -> World -> Result unit * World;
  mcp_listTools : World -> Result (list Tool) * World;
  mcp_close : World -> Result unit * World;
  (** [process.cwd()], [process.env.MCP_FILESYSTEM_DIR], [path.join] *)
  process_cwd : string;
  env_MCP_FILESYSTEM_DIR : option string;
  path_join : list string -> string
}.

Section Client.

Context {J : JSON} {C : Collaborators}.

(** A call that left the process, with what came back. *)
Inductive Event : Type :=
| EvChat (request : ChatRequest) (reply : Result ChatCompletion)
| EvTool (name : string) (arguments : json) (reply : Result CallToolResult).

(** The state a client method runs in: the world, the [tools] field of the
    client object (undefined until the connection is made), the calls made
    so far and, in [console], the lines that [chatLoop] and [main]
    themselves pass to [console.log].  The diagnostics that
    [connectToFileSystemServer] and [processQuery] log are not in
    [console]: it is not the whole output of the process. *)
Record State : Type := {
  world : World;
  this_tools : option (list CallableTool);
  calls : list Event;
  console : list string
}.

(** ** A state and exception monad

    Effects survive a [throw]: the state after a failed computation is the
    state at the point of the throw. *)
Definition M (A : Type) : Type := State -> Result A * State.

Definition ret {A} (a : A) : M A := fun st => (inr a, st).

Definition throw {A} (e : Thrown) : M A := fun st => (inl e, st).

Definition bind {A B} (m : M A) (k : A -> M B) : M B :=
  fun st =>
    match m st with
    | (inr a, st') => k a st'
    | (inl e, st') => (inl e, st')
    end.

(** [try { body } catch (error) { handler }] *)
Definition try_catch {A} (body : M A) (handler : Thrown -> M A) : M A :=
  fun st =>
    match body st with
    | (inr a, st') => (inr a, st')
    | (inl e, st') => handler e st'
    end.

Definition lift {A} (r : Result A) : M A := fun st => (r, st).

Notation "x <- m ;; k" := (bind m (fun x => k))
  (at level 61, m at next level, right associativity).
Notation "' p <- m ;; k" := (bind m (fun x => let 'p := x in k))
  (at level 61, p pattern, m at next level, right associativity).

(** [for (const x of xs) { acc = body(x, acc) }] with a body that may throw. *)
Fixpoint for_of {A B} (xs : list A) (body : A -> B -> M B) (acc : B) : M B :=
  match xs with
  | [] => ret acc
  | x :: rest => acc' <- body x acc ;; for_of rest body acc'
  end.

(** *** Calls to the collaborators

    The code awaits every call, and the request is sent while it waits: the
    transcript recorded with a completion is the [messages] array as it is
    at the call, before any later [push]. *)

Definition create (request : ChatRequest) : M ChatCompletion :=
  fun st =>
    let '(reply, w) := openai_chat_completions_create request (world st) in
    (reply, {| world := w; this_tools := this_tools st;
               calls := calls st ++ [EvChat request reply];
               console := console st |}).

Definition callTool (name : string) (arguments : json) : M CallToolResult :=
  fun st =>
    let '(reply, w) := mcp_callTool name arguments (world st) in
    (reply, {| world := w; this_tools := this_tools st;
               calls := calls st ++ [EvTool name arguments reply];
               console := console st |}).

Definition in_world {A} (f : World -> Result A * World) : M A :=
  fun st =>
    let '(reply, w) := f (world st) in
    (reply, {| world := w; this_tools := this_tools st;
               calls := calls st; console := console st |}).

Definition console_log (line : string) : M unit :=
  fun st =>
    (inr tt, {| world := world st; this_tools := this_tools st;
                calls := calls st; console := console st ++ [line] |}).

Definition set_tools (ts : list CallableTool) : M unit :=
  fun st =>
    (inr tt, {| world := world st; this_tools := Some ts;
                calls := calls st; console := console st |}).

(** [this.tools.map(...)]: a TypeError while [this.tools] is undefined. *)
Definition get_tools : M (list CallableTool) :=
  fun st =>
    match this_tools st with
    | Some ts => (inr ts, st)
    | None => (inl TypeError_undefined_map, st)
    end.

(** ** Tool registry adapter

    [toolsResult.tools.map((tool) => ({ type: "function", function: {...} }))]
    in [connectToServer] and [connectToFileSystemServer]. *)
Definition adapt_tool (tool : Tool) : CallableTool :=
  {| type := "function";
     function := {| fn_name := tool_name tool;
                    fn_description := tool_description tool;
                    fn_parameters := tool_inputSchema tool |} |}.

Definition adapt (descriptors : list Tool) : list CallableTool :=
  map adapt_tool descriptors.

(** ** processQuery *)

Definition user_message (c : Content) : Message :=
  {| role := "user"; content := c |}.

(** [`[Calling tool ${toolName} with args ${JSON.stringify(toolArgs)}]`] *)
Definition trace_line (toolName : string) (toolArgs : json) : string :=
  ("[Calling tool " ++ toolName ++ " with args " ++ JSON_stringify toolArgs ++ "]")%string.

(** [response.choices[0].message] *)
Definition first_message (response : ChatCompletion) : M AssistantMessage :=
  match choices response with
  | [] => throw TypeError_undefined_message
  | choice :: _ => ret (message choice)
  end.

(** The loop state: the [messages] array and the [finalText] array. *)
Definition Acc : Type := (list Message * list string)%type.

(** The body of [for (const toolCall of message.tool_calls)]. *)
Definition toolCallStep (toolCall : ToolCall) (acc : Acc) : M Acc :=
  let '(messages, finalText) := acc in
  let toolName := call_name (call_function toolCall) in
  toolArgs <- lift (JSON_parse (call_arguments (call_function toolCall))) ;;
  result <- callTool toolName toolArgs ;;
  let finalText := finalText ++ [trace_line toolName toolArgs] in
  let messages := messages ++ [user_message (Blocks (result_content result))] in
  response <- create {| model := "deepseek-chat"; max_tokens := 1000;
                        messages := messages; tools := None |} ;;
  reply <- first_message response ;;
  ret (messages, finalText ++ pushed (reply_content reply)).

(** The body of [for (const choice of response.choices)]. *)
Definition choiceStep (choice : Choice) (acc : Acc) : M Acc :=
  let '(messages, finalText) := acc in
  let finalText := finalText ++ pushed (reply_content (message choice)) in
  match tool_calls (message choice) with
  | Some toolCalls => for_of toolCalls toolCallStep (messages, finalText)
  | None => ret (messages, finalText)
  end.

(** The [try] block of [processQuery]. *)
Definition processQuery_try (tools : list CallableTool) (query : string) : M string :=
  let messages := [user_message (Text query)] in
  response <- create {| model := "deepseek-chat"; max_tokens := 1000;
                        messages := messages; tools := Some tools |} ;;
  _ <- first_message response ;;
  ' (_, finalText) <- for_of (choices response) choiceStep (messages, []) ;;
  ret (join newline finalText).

(** [processQuery]: the tools are read for the log line before the [try];
    whatever the [try] block throws becomes the returned string. *)
Definition processQuery (query : string) : M string :=
  tools <- get_tools ;;
  try_catch (processQuery_try tools query)
            (fun error => ret ("Error: " ++ error_text error)%string).

(** ** connectToFileSystemServer

    The arguments of the spawned server, the connection, the tool list and
    its adaptation.  The [catch] block logs and rethrows, so a failure of
    [connect] or [listTools] leaves [this.tools] undefined. *)
Definition server_args (allowedDirectories : list string) : list string :=
  let serverScriptPath := path_join [process_cwd; "src"; "fileSystem.js"] in
  match allowedDirectories with
  | [] =>
      let defaultDir :=
        if truthy env_MCP_FILESYSTEM_DIR
        then match env_MCP_FILESYSTEM_DIR with Some d => d | None => process_cwd end
        else process_cwd in
      [serverScriptPath; defaultDir]
  | _ => serverScriptPath :: allowedDirectories
  end.

Definition connectToFileSystemServer (allowedDirectories : list string) : M unit :=
  try_catch
    (_ <- in_world (mcp_connect (server_args allowedDirectories)) ;;
     toolsResult <- in_world mcp_listTools ;;
     set_tools (adapt toolsResult))
    (fun e => throw e).

(** ** chatLoop

    The lines typed at the prompt so far are the list [lines]; when they
    run out the loop is at the prompt, its [rl.question] pending.
    [console] receives the banner and, per query, the one line that
    [chatLoop] itself passes to [console.log] after the query.  The
    prompt, the spinner drawn by the timer, [rl.close()] and the lines
    that [processQuery] logs while it runs are not recorded. *)
Inductive LoopEnd : Type :=
| Quit
| AtPrompt.

Definition banner : list string :=
  [ String (ascii_of_nat 10) "FileSystem MCP Client Started!";
    "Type your file operations or 'quit' to exit.";
    "Examples:";
    "  - '显示当前目录的内容'";
    "  - '读取 README.md 文件'";
    "  - '创建一个测试文件并写入内容'";
    "  - '搜索包含 test 的文件'" ].

(** [while (true) { ... }] *)
Fixpoint chatLoop_while (lines : list string) : M LoopEnd :=
  match lines with
  | [] => ret AtPrompt
  | message :: rest =>
      if (toLowerCase message =? "quit")%string then ret Quit
      else
        _ <- try_catch
               (response <- processQuery message ;;
                console_log (newline ++ response)%string)
               (fun error =>
                  console_log (newline ++ "Error: " ++ error_message error)%string) ;;
        chatLoop_while rest
  end.

Fixpoint console_log_all (ls : list string) : M unit :=
  match ls with
  | [] => ret tt
  | l :: rest => _ <- console_log l ;; console_log_all rest
  end.

Definition chatLoop (lines : list string) : M LoopEnd :=
  _ <- console_log_all banner ;;
  chatLoop_while lines.

(** [cleanup]: [await this.mcp.close()] *)
Definition cleanup : M unit := in_world mcp_close.

(** ** main

    [try { connect; chatLoop } finally { cleanup; process.exit(0) }].
    The [finally] block runs whether the [try] block returned or threw;
    when [cleanup] throws, [process.exit(0)] is not reached and the
    rejection of [main()] is unhandled, which ends the process with code 1.
    While [chatLoop] is at the prompt nothing exits. *)
Inductive ProcessEnd : Type :=
| Exited (code : Z)
| WaitingForInput.

Definition main (argv : list string) (lines : list string)
  : State -> ProcessEnd * State :=
  fun st =>
    let allowedDirectories := skipn 2 argv in
    match (_ <- connectToFileSystemServer allowedDirectories ;; chatLoop lines) st with
    | (inr AtPrompt, st1) => (WaitingForInput, st1)
    | (_, st1) =>
        match cleanup st1 with
        | (inr _, st2) => (Exited 0, st2)
        | (inl _, st2) => (Exited 1, st2)
        end
    end.

End Client.

(** ** Runs of a query, described by what left the process

    The vocabulary in which the properties of [processQuery] are stated: a
    completed round of the inner loop, the calls a sequence of rounds leaves
    in the record, the lines it leaves in the answer, and the ways a round
    can be interrupted. *)
Section Runs.

Context {J : JSON} {C : Collaborators}.

(** The request of the first completion of a query. *)
Definition first_request (registry : list CallableTool) (query : string) : ChatRequest :=
  {| model := "deepseek-chat"; max_tokens := 1000;
     messages := [user_message (Text query)]; tools := Some registry |}.

(** The request of a follow-up completion: no [tools] property. *)
Definition follow_up_request (transcript : list Message) : ChatRequest :=
  {| model := "deepseek-chat"; max_tokens := 1000;
     messages := transcript; tools := None |}.

(** The transcript entry made of a tool result. *)
Definition result_message (result : CallToolResult) : Message :=
  user_message (Blocks (result_content result)).

Definition call_args_text (tc : ToolCall) : string :=
  call_arguments (call_function tc).

Definition call_tool_name (tc : ToolCall) : string :=
  call_name (call_function tc).

(** The tool calls of a candidate, and of all candidates of a reply in
    the order the loops visit them. *)
Definition calls_of (choice : Choice) : list ToolCall :=
  match tool_calls (message choice) with
  | Some toolCalls => toolCalls
  | None => []
  end.

Definition all_calls (response : ChatCompletion) : list ToolCall :=
  flat_map calls_of (choices response).

(** A round that ran to its end: the tool call, its parsed arguments, the
    result the tool server returned, and the follow-up reply with its
    first candidate singled out. *)
Record Round : Type := {
  round_call : ToolCall;
  round_args : json;
  round_result : CallToolResult;
  round_first : Choice;
  round_later : list Choice
}.

Definition round_reply (r : Round) : ChatCompletion :=
  {| choices := round_first r :: round_later r |}.

Definition round_parsed (r : Round) : Prop :=
  JSON_parse (call_args_text (round_call r)) = inr (round_args r).

Definition round_message (r : Round) : Message :=
  result_message (round_result r).

(** The lines a round adds to [finalText]: the trace line, then the text
    of the follow-up if there is one. *)
Definition round_lines (r : Round) : list string :=
  trace_line (call_tool_name (round_call r)) (round_args r)
    :: pushed (reply_content (message (round_first r))).

(** The calls a sequence of rounds makes, starting from [transcript]. *)
Fixpoint rounds_calls (transcript : list Message) (rs : list Round) : list Event :=
  match rs with
  | [] => []
  | r :: rest =>
      let transcript' := transcript ++ [round_message r] in
      EvTool (call_tool_name (round_call r)) (round_args r) (inr (round_result r))
        :: EvChat (follow_up_request transcript') (inr (round_reply r))
        :: rounds_calls transcript' rest
  end.

(** The lines of the answer, candidate by candidate: the text of the
    candidate, then the lines of the rounds of its tool calls. *)
Fixpoint answer_lines (cs : list Choice) (rs : list Round) : list string :=
  match cs with
  | [] => []
  | c :: rest =>
      let n := length (calls_of c) in
      pushed (reply_content (message c))
        ++ flat_map round_lines (firstn n rs)
        ++ answer_lines rest (skipn n rs)
  end.

(** The four ways the round of [tc], started on [transcript], can throw,
    with the calls it still makes. *)
Inductive Interrupt (transcript : list Message) (tc : ToolCall)
  : Thrown -> list Event -> Prop :=
| Interrupt_parse e :
    JSON_parse (call_args_text tc) = inl e ->
    Interrupt transcript tc e []
| Interrupt_tool a e :
    JSON_parse (call_args_text tc) = inr a ->
    Interrupt transcript tc e [EvTool (call_tool_name tc) a (inl e)]
| Interrupt_follow_up a result e :
    JSON_parse (call_args_text tc) = inr a ->
    Interrupt transcript tc e
      [EvTool (call_tool_name tc) a (inr result);
       EvChat (follow_up_request (transcript ++ [result_message result])) (inl e)]
| Interrupt_no_candidate a result :
    JSON_parse (call_args_text tc) = inr a ->
    Interrupt transcript tc TypeError_undefined_message
      [EvTool (call_tool_name tc) a (inr result);
       EvChat (follow_up_request (transcript ++ [result_message result]))
              (inr {| choices := [] |})].

(** A run of the loops over [tcs]: the rounds completed, the calls made
    and the outcome. *)
Inductive LoopRun (transcript : list Message) (tcs : list ToolCall)
  : list Round -> list Event -> option Thrown -> Prop :=
| LoopRun_completed rs :
    Forall round_parsed rs ->
    map round_call rs = tcs ->
    LoopRun transcript tcs rs (rounds_calls transcript rs) None
| LoopRun_interrupted rs tc rest e tail :
    Forall round_parsed rs ->
    tcs = map round_call rs ++ tc :: rest ->
    Interrupt (transcript ++ map round_message rs) tc e tail ->
    LoopRun transcript tcs rs (rounds_calls transcript rs ++ tail) (Some e).

(** A run of the [try] block of [processQuery]: the calls it makes and
    what it returns or throws. *)
Inductive QueryRun (registry : list CallableTool) (query : string)
  : list Event -> Result string -> Prop :=
| QueryRun_gateway_threw e :
    QueryRun registry query [EvChat (first_request registry query) (inl e)] (inl e)
| QueryRun_no_candidate :
    QueryRun registry query
      [EvChat (first_request registry query) (inr {| choices := [] |})]
      (inl TypeError_undefined_message)
| QueryRun_completed c cs rs calls_made :
    LoopRun [user_message (Text query)] (flat_map calls_of (c :: cs)) rs calls_made None ->
    QueryRun registry query
      (EvChat (first_request registry query) (inr {| choices := c :: cs |}) :: calls_made)
      (inr (join newline (answer_lines (c :: cs) rs)))
| QueryRun_interrupted c cs rs calls_made e :
    LoopRun [user_message (Text query)] (flat_map calls_of (c :: cs)) rs calls_made (Some e) ->
    QueryRun registry query
      (EvChat (first_request registry query) (inr {| choices := c :: cs |}) :: calls_made)
      (inl e).

(** The results the tool server returned, in the order of the record. *)
Fixpoint tool_results (evs : list Event) : list CallToolResult :=
  match evs with
  | [] => []
  | EvTool _ _ (inr result) :: rest => result :: tool_results rest
  | _ :: rest => tool_results rest
  end.

(** The invocations of the tool server, in the order of the record. *)
Fixpoint executed (evs : list Event) : list (string * json) :=
  match evs with
  | [] => []
  | EvTool name args _ :: rest => (name, args) :: executed rest
  | _ :: rest => executed rest
  end.

(** The follow-up requests: the completions asked without [tools]. *)
Fixpoint follow_ups (evs : list Event) : list ChatRequest :=
  match evs with
  | [] => []
  | EvChat request _ :: rest =>
      match tools request with
      | None => request :: follow_ups rest
      | Some _ => follow_ups rest
      end
  | _ :: rest => follow_ups rest
  end.

(** What a call threw, if it threw. *)
Definition thrown_by (ev : Event) : option Thrown :=
  match ev with
  | EvChat _ (inl e) => Some e
  | EvTool _ _ (inl e) => Some e
  | _ => None
  end.

(** An invocation of the tool server is the invocation for the tool call
    [tc]: the name of [tc] and its arguments parsed. *)
Definition invocation_of (inv : string * json) (tc : ToolCall) : Prop :=
  fst inv = call_tool_name tc /\ JSON_parse (call_args_text tc) = inr (snd inv).

(** The text of a [string | null] as a string. *)
Definition text_of (v : option string) : string :=
  match v with
  | Some s => s
  | None => EmptyString
  end.

End Runs.

(** ** A concrete setting: scripted collaborators

    JSON values with integer numbers and strings that need no escaping, a
    chat endpoint and a tool server that answer from scripts.  The runs of
    the end of the file evaluate the client in this setting. *)
Module Scenario.

#[warnings="-register-all"]
Inductive value : Type :=
| Null
| Bool (b : bool)
| Number (n : Z)
| Str (s : string)
| Array (items : list value)
| Object (fields : list (string * value)).

Definition quoted (s : string) : string :=
  (String (ascii_of_nat 34) s ++ String (ascii_of_nat 34) EmptyString)%string.

Fixpoint stringify (v : value) : string :=
  match v with
  | Null => "null"
  | Bool true => "true"
  | Bool false => "false"
  | Number n => NilZero.string_of_int (Z.to_int n)
  | Str s => quoted s
  | Array items => "[" ++ String.concat "," (map stringify items) ++ "]"
  | Object fields =>
      "{" ++ String.concat ","
               (map (fun '(k, v) => quoted k ++ ":" ++ stringify v) fields) ++ "}"
  end%string.

(** The argument objects the scripted model may send. *)
Definition beijing_3_days : value :=
  Object [("city", Str "beijing"); ("days", Number 3)].

Definition shanghai_1_day : value :=
  Object [("city", Str "shanghai"); ("days", Number 1)].

Definition known_values : list value :=
  [Object []; beijing_3_days; shanghai_1_day].

Definition SyntaxError : Thrown :=
  ErrorObject "SyntaxError" "Unexpected token c in JSON at position 1".

(** The parser of the setting reads back the texts of [known_values] and
    rejects every other string with a SyntaxError. *)
Definition parse (text : string) : Result value :=
  match find (fun v => (stringify v =? text)%string) known_values with
  | Some v => inr v
  | None => inl SyntaxError
  end.

#[local] Instance scenario_JSON : JSON :=
  {| json := value; JSON_parse := parse; JSON_stringify := stringify |}.

(** The scripts: the replies still to be given, in order. *)
Record Script : Type := {
  chat_replies : list (Result ChatCompletion);
  tool_replies : list (Result CallToolResult);
  listed_tools : list Tool
}.

Definition connection_error : Thrown := ErrorObject "Error" "Connection error.".

Definition scripted_create (request : ChatRequest) (w : Script)
  : Result ChatCompletion * Script :=
  match chat_replies w with
  | [] => (inl connection_error, w)
  | r :: rest =>
      (r, {| chat_replies := rest; tool_replies := tool_replies w;
             listed_tools := listed_tools w |})
  end.

Definition scripted_callTool (name : string) (arguments : value) (w : Script)
  : Result CallToolResult * Script :=
  match tool_replies w with
  | [] => (inl connection_error, w)
  | r :: rest =>
      (r, {| chat_replies := chat_replies w; tool_replies := rest;
             listed_tools := listed_tools w |})
  end.

#[local] Instance scenario_Collaborators : Collaborators :=
  {| World := Script;
     openai_chat_completions_create := scripted_create;
     mcp_callTool := scripted_callTool;
     mcp_connect := fun _ w => (inr tt, w);
     mcp_listTools := fun w => (inr (listed_tools w), w);
     mcp_close := fun w => (inr tt, w);
     process_cwd := "/home/user/mcp-cs-demo";
     env_MCP_FILESYSTEM_DIR := None;
     path_join := String.concat "/" |}.

(** The weather tool as its server advertises it. *)
Definition get_weather : Tool :=
  {| tool_name := "get-weather";
     tool_description := Some "Get weather forecast for a city";
     tool_inputSchema := Object [("type", Str "object")] |}.

Definition registry : list CallableTool := adapt [get_weather].

Definition call (name : string) (arguments : string) : ToolCall :=
  {| call_function := {| call_name := name; call_arguments := arguments |} |}.

Definition reply (text : option string) (calls : option (list ToolCall)) : Choice :=
  {| message := {| reply_content := text; tool_calls := calls |} |}.

Definition completion (cs : list Choice) : Result ChatCompletion :=
  inr {| choices := cs |}.

Definition tool_text (text : string) (failed : bool) : CallToolResult :=
  {| result_content := [Object [("type", Str "text"); ("text", Str text)]];
     isError := failed |}.

Definition script (chat : list (Result ChatCompletion))
                  (tool : list (Result CallToolResult)) : Script :=
  {| chat_replies := chat; tool_replies := tool; listed_tools := [get_weather] |}.

(** A connected client that has made no call yet. *)
Definition connected (w : Script) : State :=
  {| world := w; this_tools := Some registry; calls := []; console := [] |}.

(** A client whose constructor has run but not [connectToFileSystemServer]. *)
Definition fresh (w : Script) : State :=
  {| world := w; this_tools := None; calls := []; console := [] |}.

Definition beijing_call : ToolCall := call "get-weather" (stringify beijing_3_days).
Definition shanghai_call : ToolCall := call "get-weather" (stringify shanghai_1_day).
Definition broken_call : ToolCall := call "get-weather" "{city:".

(** *** The weather query, answered *)

Definition weather_query : string := "weather in beijing for 3 days".

Definition sunny : CallToolResult := tool_text "Beijing: sunny, 25 C" false.

Definition ask_beijing : Result ChatCompletion :=
  completion [reply None (Some [beijing_call])].

Definition forecast_text : string := "Here is Beijing's forecast: ...".

Definition tell_beijing : Result ChatCompletion :=
  completion [reply (Some forecast_text) None].

Definition weather_world : Script := script [ask_beijing; tell_beijing] [inr sunny].

Definition weather_first : Event :=
  EvChat (first_request registry weather_query) ask_beijing.

Definition weather_tool : Event := EvTool "get-weather" beijing_3_days (inr sunny).

Definition weather_follow_up : ChatRequest :=
  follow_up_request [user_message (Text weather_query); result_message sunny].

Definition weather_calls : list Event :=
  [weather_first; weather_tool; EvChat weather_follow_up tell_beijing].

Definition beijing_trace : string := trace_line "get-weather" beijing_3_days.

Definition weather_answer : string :=
  (beijing_trace ++ newline ++ forecast_text)%string.

(** *** Two tool calls in one reply *)

Definition rainy : CallToolResult := tool_text "Shanghai: rain, 19 C" false.

Definition ask_both : Result ChatCompletion :=
  completion [reply None (Some [beijing_call; shanghai_call])].

Definition tell_shanghai : Result ChatCompletion :=
  completion [reply (Some "Shanghai will be rainy.") None].

Definition both_world : Script :=
  script [ask_both; tell_beijing; tell_shanghai] [inr sunny; inr rainy].

Definition both_follow_up_A : Event :=
  EvChat (follow_up_request [user_message (Text weather_query); result_message sunny])
         tell_beijing.

Definition both_made : list Event :=
  [weather_tool; both_follow_up_A;
   EvTool "get-weather" shanghai_1_day (inr rainy);
   EvChat (follow_up_request [user_message (Text weather_query);
                              result_message sunny; result_message rainy])
          tell_shanghai].

(** *** A tool server that reports a failure, and one that throws *)

Definition lookup_failed : CallToolResult :=
  tool_text "HTTP error! status: 503" true.

Definition apologise : Result ChatCompletion :=
  completion [reply (Some "The weather service is unavailable.") None].

Definition reported_failure_world : Script :=
  script [ask_beijing; apologise] [inr lookup_failed].

Definition reported_failure_calls : list Event :=
  [weather_first;
   EvTool "get-weather" beijing_3_days (inr lookup_failed);
   EvChat (follow_up_request [user_message (Text weather_query);
                              result_message lookup_failed])
          apologise].

Definition reported_failure_answer : string :=
  (beijing_trace ++ newline ++ "The weather service is unavailable.")%string.

Definition thrown_failure_world : Script :=
  script [ask_beijing; apologise] [inl connection_error].

(** *** Replies with one and with two candidates *)

Definition one_candidate_world : Script :=
  script [completion [reply (Some "Sunny.") None]] [].

Definition two_candidates_world : Script :=
  script [completion [reply (Some "Sunny.") None; reply (Some "Rainy.") None]] [].


(** *** A chat endpoint that rejects the key *)

Definition authentication_error : Thrown :=
  ErrorObject "AuthenticationError" "401 Authentication Fails".

Definition rejected_world : Script := script [inl authentication_error] [].

Definition rejected_call : Event :=
  EvChat (first_request registry weather_query) (inl authentication_error).

(** *** A tool call with arguments that are not JSON *)

Definition ask_broken : ChatCompletion :=
  {| choices := [reply None (Some [broken_call; beijing_call])] |}.

Definition broken_world : Script := script [inr ask_broken] [inr sunny].

(** *** A second tool call that fails *)


(** The first call throws, the second has arguments that are not JSON. *)
Definition ask_then_broken : ChatCompletion :=
  {| choices := [reply None (Some [beijing_call; broken_call])] |}.

Definition throws_before_broken_world : Script :=
  script [inr ask_then_broken] [inl connection_error].

(** *** A reply without candidates, a tool without description *)

Definition no_candidate_world : Script := script [completion []] [].

Definition undescribed : Tool :=
  {| tool_name := "list_directory";
     tool_description := None;
     tool_inputSchema := Object [("type", Str "object")] |}.

End Scenario.

(** ** The session, query by query *)

Section Session.

Context {J : JSON} {C : Collaborators}.

(** Whether a line is the sentinel of [chatLoop]. *)
Definition is_quit (line : string) : bool :=
  (toLowerCase line =? "quit")%string.

(** The lines [chatLoop] handles as queries: those typed before the first
    sentinel. *)
Fixpoint handled (lines : list string) : list string :=
  match lines with
  | [] => []
  | l :: rest => if is_quit l then [] else l :: handled rest
  end.

(** The first completions of the queries: those asked with [tools]. *)
Fixpoint first_requests (evs : list Event) : list ChatRequest :=
  match evs with
  | [] => []
  | EvChat request _ :: rest =>
      match tools request with
      | Some _ => request :: first_requests rest
      | None => first_requests rest
      end
  | _ :: rest => first_requests rest
  end.

End Session.

(** The sixteen ways of writing the sentinel. *)
Definition sentinel_casings : list string :=
  [ "quit"; "quiT"; "quIt"; "quIT"; "qUit"; "qUiT"; "qUIt"; "qUIT";
    "Quit"; "QuiT"; "QuIt"; "QuIT"; "QUit"; "QUiT"; "QUIt"; "QUIT" ].

(** ** The busy indicator of chatLoop

    [showLoading] starts a timer whose callback writes a frame and moves
    the index [i]; [spinner_tick] is one run of the callback, on the index
    it finds, and [spinner_ticks] is [n] runs in a row.  When the timer
    fires is not modelled. *)
Definition carriage_return : string := String (ascii_of_nat 13) EmptyString.

Definition frames : list string :=
  ["⠋"; "⠙"; "⠹"; "⠸"; "⠼"; "⠴"; "⠦"; "⠧"; "⠇"; "⠏"].

(** [frames[i]] inside a template literal. *)
Definition frame_text (i : nat) : string :=
  match nth_error frames i with
  | Some frame => frame
  | None => "undefined"
  end.

Definition spinner_tick (message : string) (i : nat) : string * nat :=
  ((carriage_return ++ frame_text i ++ " " ++ message)%string,
   (i + 1) mod length frames).

Fixpoint spinner_ticks (message : string) (n i : nat) : list string * nat :=
  match n with
  | O => ([], i)
  | S n' =>
      let '(written, i') := spinner_tick message i in
      let '(rest, last) := spinner_ticks message n' i' in
      (written :: rest, last)
  end.

(** ** MCPClient (index.js): connectToServer and main

    The other client spawns the server script it is given.  What it hands
    to the transport is a [ServerParameters]; the platform, the path of
    the node executable and the key of the weather service come from the
    process. *)

Record ServerParameters : Type := {
  command : string;
  args : list string;
  env : list (string * string)
}.

Class Spawn {J : JSON} {C : Collaborators} : Type := {
  process_platform : string;
  process_execPath : string;
  env_XINGZHI_API_KEY : option string;
  mcp_connect_transport : ServerParameters -> World -> Result unit * World
}.

(** [String.prototype.endsWith] *)
Definition endsWith (s suffix : string) : bool :=
  let n := String.length s in
  let k := String.length suffix in
  (k <=? n)%nat && (substring (n - k) k s =? suffix)%string.

Section MCPClient.

Context {J : JSON} {C : Collaborators} {S : Spawn}.

Local Notation "x <- m ;; k" := (bind m (fun x => k))
  (at level 61, m at next level, right associativity).

Definition script_error : Thrown :=
  ErrorObject "Error" "Server script must be a .js or .py file".

Definition connectToServer (serverScriptPath : string) : M unit :=
  try_catch
    (let isJs := endsWith serverScriptPath ".js" in
     let isPy := endsWith serverScriptPath ".py" in
     if negb isJs && negb isPy then throw script_error
     else
       let command :=
         if isPy
         then (if (process_platform =? "win32")%string then "python" else "python3")
         else process_execPath in
       _ <- in_world
              (mcp_connect_transport
                 {| command := command;
                    args := [serverScriptPath];
                    env := [("XINGZHI_API_KEY",
                             match env_XINGZHI_API_KEY with
                             | Some (String c key) => String c key
                             | _ => EmptyString
                             end)] |}) ;;
       toolsResult <- in_world mcp_listTools ;;
       set_tools (adapt toolsResult))
    (fun e => throw e).

Definition MCPClient_banner : list string :=
  [ String (ascii_of_nat 10) "MCP Client Started!";
    "Type your queries or 'quit' to exit." ].

Definition MCPClient_chatLoop (lines : list string) : M LoopEnd :=
  _ <- console_log_all MCPClient_banner ;;
  chatLoop_while lines.

Definition usage : string := "Usage: node index.ts <path_to_server_script>".

(** [main] of index.js.  With fewer than three entries in [process.argv]
    it prints the usage and returns before a client is made; nothing is
    pending then and the process ends with code 0. *)
Definition MCPClient_main (argv : list string) (lines : list string)
  : State -> ProcessEnd * State :=
  fun st =>
    if (length argv <? 3)%nat then (Exited 0, snd (console_log usage st))
    else
      match (_ <- connectToServer (nth 2 argv EmptyString) ;;
             MCPClient_chatLoop lines) st with
      | (inr AtPrompt, st1) => (WaitingForInput, st1)
      | (_, st1) =>
          match cleanup st1 with
          | (inr _, st2) => (Exited 0, st2)
          | (inl _, st2) => (Exited 1, st2)
          end
      end.

End MCPClient.

(** * The weather server

    The server of the [get-weather] tool: the validation of the request
    parameters, the request to the weather service and the text of the
    reply.  The diagnostics of [debugLog] are not modelled. *)

(** ** Numbers

    A JavaScript number, as far as the checks of the schemas see it: an
    integer, a number strictly between [below] and [below + 1], NaN, or an
    infinity. *)
Inductive number : Type :=
| Integer (z : Z)
| NonInteger (below : Z)
| NaN
| Infinity (negative : bool).

(** [Number.isInteger] *)
Definition isInteger (n : number) : bool :=
  match n with
  | Integer _ => true
  | _ => false
  end.

(** [n >= k] for an integer [k]. *)
Definition at_least (k : Z) (n : number) : bool :=
  match n with
  | Integer z => (k <=? z)%Z
  | NonInteger below => (k <=? below)%Z
  | NaN => false
  | Infinity negative => negb negative
  end.

(** [n <= k] for an integer [k]. *)
Definition at_most (k : Z) (n : number) : bool :=
  match n with
  | Integer z => (z <=? k)%Z
  | NonInteger below => (below <? k)%Z
  | NaN => false
  | Infinity negative => negative
  end.

(** ** The values of a parameter object and the schema

    A property of the object given to [buildWeatherApiUrl] is absent
    ([None]) or holds a string, a number or a value of another type. *)
Inductive Val : Type :=
| VString (s : string)
| VNumber (n : number)
| VOther.

Record RawParams : Type := {
  raw_key : option Val;
  raw_location : option Val;
  raw_language : option Val;
  raw_unit : option Val;
  raw_start : option Val;
  raw_days : option Val
}.

(** One issue of a failed validation: where and of which kind. *)
Record Issue : Type := {
  issue_path : string;
  issue_code : string
}.

(** The checks chained on [z.number()]. *)
Inductive Check : Type :=
| IsInt
| Min (k : Z)
| Max (k : Z).

Definition check_issues (path : string) (n : number) (c : Check) : list Issue :=
  match c with
  | IsInt =>
      if isInteger n then []
      else [{| issue_path := path; issue_code := "invalid_type" |}]
  | Min k =>
      if at_least k n then []
      else [{| issue_path := path; issue_code := "too_small" |}]
  | Max k =>
      if at_most k n then []
      else [{| issue_path := path; issue_code := "too_big" |}]
  end.

Definition invalid_type (path : string) : list Issue :=
  [{| issue_path := path; issue_code := "invalid_type" |}].

(** [z.string()] *)
Definition z_string (path : string) (v : option Val) : list Issue + string :=
  match v with
  | Some (VString s) => inr s
  | _ => inl (invalid_type path)
  end.

(** [z.enum(allowed).default(d)] *)
Definition z_enum_default (path : string) (allowed : list string) (d : string)
                          (v : option Val) : list Issue + string :=
  match v with
  | None => inr d
  | Some (VString s) =>
      if existsb (String.eqb s) allowed then inr s
      else inl [{| issue_path := path; issue_code := "invalid_enum_value" |}]
  | Some _ => inl (invalid_type path)
  end.

(** [z.number()] with its chained checks, on a value that is there. *)
Definition z_number (path : string) (checks : list Check) (v : Val)
  : list Issue + number :=
  match v with
  | VNumber NaN => inl (invalid_type path)
  | VNumber n =>
      match flat_map (check_issues path n) checks with
      | [] => inr n
      | issues => inl issues
      end
  | _ => inl (invalid_type path)
  end.

(** [z.number()....default(d)] *)
Definition z_number_default (path : string) (checks : list Check) (d : number)
                            (v : option Val) : list Issue + number :=
  match v with
  | None => inr d
  | Some x => z_number path checks x
  end.

(** [z.number()....optional()] *)
Definition z_number_optional (path : string) (checks : list Check)
                             (v : option Val) : list Issue + option number :=
  match v with
  | None => inr None
  | Some x =>
      match z_number path checks x with
      | inr n => inr (Some n)
      | inl issues => inl issues
      end
  end.

Definition issues_of {A} (r : list Issue + A) : list Issue :=
  match r with
  | inl issues => issues
  | inr _ => []
  end.

Definition languages : list string := ["zh-Hans"; "zh-Hant"; "en"; "ja"].
Definition units : list string := ["c"; "f"].

(** The parameters after validation, the defaults filled in. *)
Record ApiParams : Type := {
  api_key : string;
  api_location : string;
  api_language : string;
  api_unit : string;
  api_start : number;
  api_days : option number
}.

(** [WeatherApiParams.parse]: every property is checked and the issues of
    all of them are reported together. *)
Definition WeatherApiParams_parse (p : RawParams) : list Issue + ApiParams :=
  let key := z_string "key" (raw_key p) in
  let location := z_string "location" (raw_location p) in
  let language := z_enum_default "language" languages "zh-Hans" (raw_language p) in
  let unit_ := z_enum_default "unit" units "c" (raw_unit p) in
  let start := z_number_default "start" [IsInt; Min 0] (Integer 0) (raw_start p) in
  let days := z_number_optional "days" [IsInt; Min 1; Max 7] (raw_days p) in
  match key, location, language, unit_, start, days with
  | inr k, inr l, inr la, inr u, inr s, inr d =>
      inr {| api_key := k; api_location := l; api_language := la;
             api_unit := u; api_start := s; api_days := d |}
  | _, _, _, _, _, _ =>
      inl (issues_of key ++ issues_of location ++ issues_of language
             ++ issues_of unit_ ++ issues_of start ++ issues_of days)
  end.

(** ** The weather service and the built-ins of the server *)

(** What the service answers for a day, a place and a query, for answers
    of the shape the handler is written for: [results] absent or an array
    of objects, [daily] absent or an array of objects, [location] absent
    or an object, and strings as the values printed.  A property that is
    missing prints as [undefined].  Bodies of another shape (a result that
    is null, a [daily] that is not an array, ...) are not covered by these
    types. *)
Record Daily : Type := {
  d_date : option string;
  d_text_day : option string;
  d_high : option string;
  d_text_night : option string;
  d_low : option string;
  d_rainfall : option string;
  d_wind_direction : option string;
  d_wind_speed : option string;
  d_humidity : option string
}.

Record Location : Type := {
  loc_name : option string;
  loc_path : option string
}.

Record ResultEntry : Type := {
  r_location : option Location;
  r_daily : option (list Daily);
  r_last_update : option string
}.

Record WeatherData : Type := {
  results : option (list ResultEntry)
}.

(** What [fetch] resolves to: the status and the body as [response.json()]
    gives it. *)
Record Response : Type := {
  ok : bool;
  status : Z;
  response_json : Result WeatherData
}.

Class Seniverse : Type := {
  ServerWorld : Type;
  fetch : string -> list (string * string) -> ServerWorld
          -> Result Response * ServerWorld;
  (** [process.env.XINGZHI_API_KEY], set: the module exits without it *)
  API_KEY : string;
  (** [URLSearchParams.prototype.toString] on the pairs appended *)
  URLSearchParams_toString : list (string * string) -> string;
  (** [Number.prototype.toString]; the code applies it to integers *)
  Number_toString : number -> string;
  (** the [message] of a ZodError *)
  ZodError_message : list Issue -> string
}.

Section WeatherServer.

Context {W : Seniverse}.

Definition SENIVERSE_API_BASE : string := "https://api.seniverse.com/v3".
Definition USER_AGENT : string := "weather-app/1.0".

(** [Object.entries(validatedParams)] without the undefined values, each
    value through [toString()]. *)
Definition query_pairs (v : ApiParams) : list (string * string) :=
  [ ("key", api_key v);
    ("location", api_location v);
    ("language", api_language v);
    ("unit", api_unit v);
    ("start", Number_toString (api_start v)) ]
  ++ match api_days v with
     | Some d => [("days", Number_toString d)]
     | None => []
     end.

(** [{ success: true, url }] or [{ success: false, error }] *)
Inductive UrlResult : Type :=
| UrlBuilt (url : string)
| UrlRefused (error : string).

Definition validation_failed : string := "参数验证失败: ".

Definition buildWeatherApiUrl (params : RawParams) : UrlResult :=
  match WeatherApiParams_parse params with
  | inr validatedParams =>
      UrlBuilt (SENIVERSE_API_BASE ++ "/weather/daily.json?"
                  ++ URLSearchParams_toString (query_pairs validatedParams))%string
  | inl issues => UrlRefused (validation_failed ++ ZodError_message issues)%string
  end.

(** The state of the server: the world and the requests sent so far. *)
Record ServerState : Type := {
  server_world : ServerWorld;
  requests : list (string * list (string * string))
}.

Definition request_headers : list (string * string) :=
  [("User-Agent", USER_AGENT); ("Accept", "application/json")].

(** [makeSeniverseRequest]: whatever goes wrong inside its [try], a
    rejected [fetch], a status that is not ok, a body that is not JSON,
    it returns null. *)
Definition makeSeniverseRequest (url : string) (st : ServerState)
  : option WeatherData * ServerState :=
  let '(reply, w) := fetch url request_headers (server_world st) in
  let st' := {| server_world := w;
                requests := requests st ++ [(url, request_headers)] |} in
  match reply with
  | inl _ => (None, st')
  | inr response =>
      if negb (ok response) then (None, st')
      else match response_json response with
           | inr data => (Some data, st')
           | inl _ => (None, st')
           end
  end.

(** A value inside a template literal. *)
Definition shown (v : option string) : string :=
  match v with
  | Some s => s
  | None => "undefined"
  end.

Definition formatDailyForecast (dailyData : Daily) : string :=
  join newline
    [ ("日期: " ++ shown (d_date dailyData))%string;
      ("白天: " ++ shown (d_text_day dailyData)
         ++ " (" ++ shown (d_high dailyData) ++ "°C)")%string;
      ("夜间: " ++ shown (d_text_night dailyData)
         ++ " (" ++ shown (d_low dailyData) ++ "°C)")%string;
      ("降水: " ++ shown (d_rainfall dailyData) ++ "mm")%string;
      ("风向: " ++ shown (d_wind_direction dailyData)
         ++ " (" ++ shown (d_wind_speed dailyData) ++ "km/h)")%string;
      ("湿度: " ++ shown (d_humidity dailyData) ++ "%")%string;
      "---" ].

(** The arguments of the tool as the handler receives them. *)
Record WeatherArgs : Type := {
  arg_city : string;
  arg_days : number;
  arg_language : string;
  arg_unit : string
}.

(** [{ type: "text", text }] *)
Record TextBlock : Type := {
  block_type : string;
  block_text : string
}.

Definition text_reply (text : string) : list TextBlock :=
  [{| block_type := "text"; block_text := text |}].

Definition apiParams (a : WeatherArgs) : RawParams :=
  {| raw_key := Some (VString API_KEY);
     raw_location := Some (VString (arg_city a));
     raw_language := Some (VString (arg_language a));
     raw_unit := Some (VString (arg_unit a));
     raw_start := Some (VNumber (Integer 0));
     raw_days := Some (VNumber (arg_days a)) |}.

Definition request_failed (city : string) : string :=
  ("获取 " ++ city
     ++ " 的天气数据失败，请检查城市名称是否正确或网络连接是否正常。")%string.

Definition no_result (city : string) : string :=
  ("未找到 " ++ city ++ " 的天气信息，请检查城市名称是否正确。")%string.

Definition no_forecast (city : string) : string :=
  ("未找到 " ++ city ++ " 的预报数据。")%string.

Definition TypeError_undefined_name : Thrown :=
  ErrorObject "TypeError" "Cannot read properties of undefined (reading 'name')".

(** The text of a forecast: the place, the time of the last update, the
    number of days asked for, an empty line and the days. *)
Definition weatherText (location : Location) (result : ResultEntry)
                       (days : number) (dailyForecasts : list Daily) : string :=
  join newline
    [ ("📍 " ++ shown (loc_name location)
         ++ " (" ++ shown (loc_path location) ++ ")")%string;
      ("🕐 最后更新: " ++ shown (r_last_update result))%string;
      ("📅 " ++ Number_toString days ++ "天天气预报:")%string;
      EmptyString;
      join newline (map formatDailyForecast dailyForecasts) ].

(** The handler of the [get-weather] tool: the content it returns, or
    what it throws, on answers of the shape of [WeatherData]. *)
Definition get_weather (a : WeatherArgs) (st : ServerState)
  : Result (list TextBlock) * ServerState :=
  match buildWeatherApiUrl (apiParams a) with
  | UrlRefused error => (inr (text_reply error), st)
  | UrlBuilt url =>
      let '(weatherData, st1) := makeSeniverseRequest url st in
      match weatherData with
      | None => (inr (text_reply (request_failed (arg_city a))), st1)
      | Some data =>
          match results data with
          | None | Some [] => (inr (text_reply (no_result (arg_city a))), st1)
          | Some (result :: _) =>
              match r_daily result with
              | None | Some [] =>
                  (inr (text_reply (no_forecast (arg_city a))), st1)
              | Some dailyForecasts =>
                  match r_location result with
                  | None => (inl TypeError_undefined_name, st1)
                  | Some location =>
                      (inr (text_reply
                              (weatherText location result (arg_days a)
                                           dailyForecasts)), st1)
                  end
              end
          end
      end
  end.

(** The schema the tool is registered with: [days] a number from 1 to 7,
    [language] and [unit] one of their choices. *)
Definition tool_schema_admits (a : WeatherArgs) : Prop :=
  at_least 1 (arg_days a) = true /\ at_most 7 (arg_days a) = true /\
  In (arg_language a) languages /\ In (arg_unit a) units.

End WeatherServer.

(** ** A setting where the tool server cannot be reached *)
Module Outage.

Import Scenario.
#[local] Existing Instance scenario_JSON.

#[local] Instance unreachable_Collaborators : Collaborators :=
  {| World := Script;
     openai_chat_completions_create := scripted_create;
     mcp_callTool := scripted_callTool;
     mcp_connect := fun _ w => (inl connection_error, w);
     mcp_listTools := fun w => (inr (listed_tools w), w);
     mcp_close := fun w => (inr tt, w);
     process_cwd := "/home/user/mcp-cs-demo";
     env_MCP_FILESYSTEM_DIR := None;
     path_join := String.concat "/" |}.

(** A client whose constructor has run. *)
Definition new_client : State :=
  {| world := script [] []; this_tools := None; calls := []; console := [] |}.

End Outage.

(** ** A setting where closing the session fails *)
Module Teardown.

Import Scenario.
#[local] Existing Instance scenario_JSON.

#[local] Instance close_throws_Collaborators : Collaborators :=
  {| World := Script;
     openai_chat_completions_create := scripted_create;
     mcp_callTool := scripted_callTool;
     mcp_connect := fun _ w => (inr tt, w);
     mcp_listTools := fun w => (inr (listed_tools w), w);
     mcp_close := fun w => (inl connection_error, w);
     process_cwd := "/home/user/mcp-cs-demo";
     env_MCP_FILESYSTEM_DIR := None;
     path_join := String.concat "/" |}.

(** A client whose constructor has run. *)
Definition starting : State :=
  {| world := script [] []; this_tools := None; calls := []; console := [] |}.

End Teardown.

(** ** A setting for the other client: a Linux machine *)
Module Launch.

Import Scenario.
#[local] Existing Instance scenario_JSON.
#[local] Existing Instance scenario_Collaborators.

#[local] Instance linux_Spawn : Spawn :=
  {| process_platform := "linux";
     process_execPath := "/usr/bin/node";
     env_XINGZHI_API_KEY := None;
     mcp_connect_transport := fun _ w => (inr tt, w) |}.

End Launch.

(** ** A setting for the weather server: a scripted service *)
Module Service.

(** The answers the service still has to give. *)
Record Net : Type := {
  answers : list (Result Response)
}.

Definition scripted_fetch (url : string) (headers : list (string * string))
                          (w : Net) : Result Response * Net :=
  match answers w with
  | [] => (inl (ErrorObject "FetchError" "request failed"), w)
  | r :: rest => (r, {| answers := rest |})
  end.

(** The pairs joined as a query string; the values of the setting need
    no escaping. *)
Definition pairs_text (pairs : list (string * string)) : string :=
  String.concat "&" (map (fun '(k, v) => (k ++ "=" ++ v)%string) pairs).

Definition integer_text (n : number) : string :=
  match n with
  | Integer z => NilZero.string_of_int (Z.to_int z)
  | _ => "NaN"
  end.

#[local] Instance scripted_Seniverse : Seniverse :=
  {| ServerWorld := Net;
     fetch := scripted_fetch;
     API_KEY := "SECRET";
     URLSearchParams_toString := pairs_text;
     Number_toString := integer_text;
     ZodError_message := fun issues => String.concat "," (map issue_path issues) |}.

Definition idle (rs : list (Result Response)) : ServerState :=
  {| server_world := {| answers := rs |}; requests := [] |}.

Definition beijing_3 : WeatherArgs :=
  {| arg_city := "beijing"; arg_days := Integer 3;
     arg_language := "zh-Hans"; arg_unit := "c" |}.

(** Two days and a half: between 2 and 3. *)
Definition beijing_2_and_a_half : WeatherArgs :=
  {| arg_city := "beijing"; arg_days := NonInteger 2;
     arg_language := "zh-Hans"; arg_unit := "c" |}.

Definition beijing_url : string :=
  "https://api.seniverse.com/v3/weather/daily.json?key=SECRET&location=beijing&language=zh-Hans&unit=c&start=0&days=3".

Definition monday : Daily :=
  {| d_date := Some "2025-06-30"; d_text_day := Some "Sunny"; d_high := Some "31";
     d_text_night := Some "Clear"; d_low := Some "22"; d_rainfall := Some "0.0";
     d_wind_direction := Some "S"; d_wind_speed := Some "12";
     d_humidity := Some "40" |}.

Definition beijing_result : ResultEntry :=
  {| r_location := Some {| loc_name := Some "Beijing";
                           loc_path := Some "Beijing,Beijing,China" |};
     r_daily := Some [monday];
     r_last_update := Some "2025-06-30T08:00:00+08:00" |}.

Definition tianjin_result : ResultEntry :=
  {| r_location := Some {| loc_name := Some "Tianjin";
                           loc_path := Some "Tianjin,Tianjin,China" |};
     r_daily := Some [monday; monday];
     r_last_update := Some "2025-06-30T09:00:00+08:00" |}.

Definition answer_with (rs : list ResultEntry) : Response :=
  {| ok := true; status := 200;
     response_json := inr {| results := Some rs |} |}.

End Service.

(** * Properties *)

Section Properties.

Context {J : JSON} {C : Collaborators}.

(** ** The rounds of the loops *)

Lemma rounds_calls_app (ms : list Message) (rs1 rs2 : list Round) :
  rounds_calls ms (rs1 ++ rs2)
  = rounds_calls ms rs1 ++ rounds_calls (ms ++ map round_message rs1) rs2.
Proof.
  revert ms. induction rs1 as [|r rs1 IH]; intros ms; simpl.
  - now rewrite app_nil_r.
  - rewrite IH, <- app_assoc. reflexivity.
Qed.

Lemma LoopRun_app_completed ms tcs1 tcs2 rs1 rs2 evs1 evs2 oe :
  LoopRun ms tcs1 rs1 evs1 None ->
  LoopRun (ms ++ map round_message rs1) tcs2 rs2 evs2 oe ->
  LoopRun ms (tcs1 ++ tcs2) (rs1 ++ rs2) (evs1 ++ evs2) oe.
Proof.
  intros H1 H2. inversion H1 as [rs Hp Hc|]; subst.
  inversion H2 as [rs Hp2 Hc2 | rs tc rest e tail Hp2 Hc2 Hi]; subst.
  - rewrite <- rounds_calls_app, <- map_app.
    constructor; [apply Forall_app; now split | reflexivity].
  - rewrite (app_assoc (rounds_calls _ _)), <- rounds_calls_app.
    apply LoopRun_interrupted with (tc := tc) (rest := rest).
    + apply Forall_app; now split.
    + now rewrite map_app, <- app_assoc.
    + now rewrite map_app, app_assoc.
Qed.

Lemma LoopRun_app_interrupted ms tcs1 tcs2 rs1 evs1 e :
  LoopRun ms tcs1 rs1 evs1 (Some e) ->
  LoopRun ms (tcs1 ++ tcs2) rs1 evs1 (Some e).
Proof.
  intros H1. inversion H1 as [| rs tc rest e' tail Hp Hc Hi]; subst.
  apply LoopRun_interrupted with (tc := tc) (rest := rest ++ tcs2); auto.
  now rewrite <- app_assoc.
Qed.

(** One round: it completes, or it is interrupted in one of the four ways. *)
Lemma toolCallStep_run tc ms ft st out st' :
  toolCallStep tc (ms, ft) st = (out, st') ->
  this_tools st' = this_tools st /\ console st' = console st /\
  exists evs, calls st' = calls st ++ evs /\
    ((exists r, round_call r = tc /\ round_parsed r /\
                evs = rounds_calls ms [r] /\
                out = inr (ms ++ [round_message r], ft ++ round_lines r))
     \/ (exists e, out = inl e /\ Interrupt ms tc e evs)).
Proof.
  unfold toolCallStep, bind, lift, callTool, create, first_message, ret, throw.
  destruct (JSON_parse (call_arguments (call_function tc))) as [e|a] eqn:Hparse.
  { intros H; inversion H; subst. repeat split.
    exists []. rewrite app_nil_r. split; [reflexivity|].
    right. exists e. split; [reflexivity|]. now constructor. }
  destruct (mcp_callTool (call_name (call_function tc)) a (world st))
    as [[e|result] w1] eqn:Htool.
  { intros H; inversion H; subst; simpl. repeat split.
    eexists. split; [reflexivity|].
    right. exists e. split; [reflexivity|]. now apply Interrupt_tool. }
  cbn [world this_tools calls console].
  match goal with
  | |- context [openai_chat_completions_create ?req w1] =>
      destruct (openai_chat_completions_create req w1) as [[e|[[|c later]]] w2] eqn:Hchat
  end.
  - intros H; inversion H; subst; simpl. repeat split.
    eexists. split; [now rewrite <- app_assoc|].
    right. exists e. split; [reflexivity|]. now apply Interrupt_follow_up.
  - cbn. intros H; inversion H; subst; simpl. repeat split.
    eexists. split; [now rewrite <- app_assoc|].
    right. eexists. split; [reflexivity|]. now apply Interrupt_no_candidate.
  - cbn. intros H; inversion H; subst; simpl. repeat split.
    eexists. split; [now rewrite <- app_assoc|].
    left.
    exists {| round_call := tc; round_args := a; round_result := result;
              round_first := c; round_later := later |}.
    repeat split; try assumption.
    now rewrite <- app_assoc.
Qed.

(** The inner loop over the tool calls of one candidate. *)
Lemma for_of_toolCalls_run tcs : forall ms ft st out st',
  for_of tcs toolCallStep (ms, ft) st = (out, st') ->
  this_tools st' = this_tools st /\ console st' = console st /\
  exists rs evs oe,
    calls st' = calls st ++ evs /\ LoopRun ms tcs rs evs oe /\
    match oe with
    | None => out = inr (ms ++ map round_message rs, ft ++ flat_map round_lines rs)
    | Some e => out = inl e
    end.
Proof.
  induction tcs as [|tc tcs IH]; intros ms ft st out st' Hrun.
  - cbn in Hrun. inversion Hrun; subst. repeat split.
    exists [], [], None. cbn. rewrite !app_nil_r.
    repeat split. now apply (LoopRun_completed ms [] []).
  - cbn [for_of] in Hrun. unfold bind in Hrun.
    destruct (toolCallStep tc (ms, ft) st) as [[e|[ms1 ft1]] st1] eqn:Hstep;
      apply toolCallStep_run in Hstep;
      destruct Hstep as (Ht & Hc & evs1 & Hevs1 & Hcase).
    + inversion Hrun; subst. repeat split; try assumption.
      destruct Hcase as [(r & _ & _ & _ & Habs) | (e' & He & Hint)]; [discriminate|].
      inversion He; subst e'.
      exists [], evs1, (Some e). repeat split; try assumption.
      now apply (LoopRun_interrupted ms (tc :: tcs) [] tc tcs e evs1);
        [constructor | reflexivity | cbn; rewrite app_nil_r].
    + destruct Hcase as [(r & Hr & Hp & Hevs & Hout) | (e' & Habs & _)]; [|discriminate].
      inversion Hout; subst ms1 ft1 evs1.
      apply IH in Hrun. destruct Hrun as (Ht2 & Hc2 & rs & evs & oe & Hevs2 & Hloop & Hres).
      split; [congruence|]. split; [congruence|].
      exists (r :: rs), (rounds_calls ms [r] ++ evs), oe. repeat split.
      * rewrite Hevs2, Hevs1, <- app_assoc. reflexivity.
      * apply (LoopRun_app_completed ms [tc] tcs [r] rs); [|exact Hloop].
        apply LoopRun_completed; [now constructor | now cbn; rewrite Hr].
      * destruct oe; [exact Hres|].
        rewrite Hres. cbn [map flat_map]. now rewrite <- !app_assoc.
Qed.

Lemma answer_lines_app c cs (rs1 rs2 : list Round) :
  length rs1 = length (calls_of c) ->
  answer_lines (c :: cs) (rs1 ++ rs2)
  = pushed (reply_content (message c)) ++ flat_map round_lines rs1
      ++ answer_lines cs rs2.
Proof.
  intros Hlen. cbn [answer_lines]. rewrite <- Hlen.
  rewrite firstn_app, skipn_app, Nat.sub_diag, firstn_all, skipn_all.
  cbn. now rewrite app_nil_r.
Qed.

(** The body of the outer loop, on one candidate. *)
Lemma choiceStep_eq (c : Choice) ms ft :
  choiceStep c (ms, ft)
  = for_of (calls_of c) toolCallStep (ms, ft ++ pushed (reply_content (message c))).
Proof.
  unfold choiceStep, calls_of. now destruct (tool_calls (message c)).
Qed.

(** The outer loop over the candidates of the first reply. *)
Lemma for_of_choices_run cs : forall ms ft st out st',
  for_of cs choiceStep (ms, ft) st = (out, st') ->
  this_tools st' = this_tools st /\ console st' = console st /\
  exists rs evs oe,
    calls st' = calls st ++ evs /\ LoopRun ms (flat_map calls_of cs) rs evs oe /\
    match oe with
    | None => out = inr (ms ++ map round_message rs, ft ++ answer_lines cs rs)
    | Some e => out = inl e
    end.
Proof.
  induction cs as [|c cs IH]; intros ms ft st out st' Hrun.
  - cbn in Hrun. inversion Hrun; subst. repeat split.
    exists [], [], None. cbn. rewrite !app_nil_r.
    repeat split. now apply (LoopRun_completed ms [] []).
  - cbn [for_of] in Hrun. unfold bind in Hrun. rewrite choiceStep_eq in Hrun.
    destruct (for_of (calls_of c) toolCallStep
                (ms, ft ++ pushed (reply_content (message c))) st)
      as [[e|[ms1 ft1]] st1] eqn:Hinner;
      apply for_of_toolCalls_run in Hinner;
      destruct Hinner as (Ht & Hc & rs1 & evs1 & oe1 & Hevs1 & Hloop1 & Hres1).
    + inversion Hrun; subst. repeat split; try assumption.
      destruct oe1 as [e1|]; [|discriminate]. inversion Hres1; subst e1.
      exists rs1, evs1, (Some e). repeat split; try assumption.
      cbn [flat_map]. now apply LoopRun_app_interrupted.
    + destruct oe1 as [e1|]; [discriminate|]. inversion Hres1; subst ms1 ft1.
      apply IH in Hrun.
      destruct Hrun as (Ht2 & Hc2 & rs2 & evs2 & oe & Hevs2 & Hloop2 & Hres2).
      split; [congruence|]. split; [congruence|].
      exists (rs1 ++ rs2), (evs1 ++ evs2), oe. repeat split.
      * rewrite Hevs2, Hevs1, <- app_assoc. reflexivity.
      * cbn [flat_map]. now apply LoopRun_app_completed.
      * destruct oe; [exact Hres2|].
        rewrite Hres2. rewrite answer_lines_app.
        -- now rewrite map_app, <- !app_assoc.
        -- inversion Hloop1 as [rs Hp Hm|]; subst.
           now rewrite <- Hm, length_map.
Qed.

(** The [try] block of [processQuery]: every run is a [QueryRun]. *)
Lemma processQuery_try_run registry query st out st' :
  processQuery_try registry query st = (out, st') ->
  this_tools st' = this_tools st /\ console st' = console st /\
  exists evs, calls st' = calls st ++ evs /\ QueryRun registry query evs out.
Proof.
  unfold processQuery_try, bind, create.
  fold (first_request registry query).
  destruct (openai_chat_completions_create (first_request registry query) (world st))
    as [[e|[[|c cs]]] w1] eqn:Hchat; cbn -[for_of].
  - intros H; inversion H; subst; cbn. repeat split.
    eexists. split; [reflexivity|]. constructor.
  - intros H; inversion H; subst; cbn. repeat split.
    eexists. split; [reflexivity|]. constructor.
  - match goal with
    | |- context [for_of ?l choiceStep ?acc ?s] =>
        destruct (for_of l choiceStep acc s) as [[e|[ms1 ft1]] st1] eqn:Hloop
    end;
    apply for_of_choices_run in Hloop;
    destruct Hloop as (Ht & Hc & rs & evs & oe & Hevs & Hrun & Hres);
    cbn in Ht, Hc, Hevs;
    intros H; inversion H; subst; clear H.
    + destruct oe as [e1|]; [|discriminate]. inversion Hres; subst e1.
      repeat split; try assumption.
      exists (EvChat (first_request registry query) (inr {| choices := c :: cs |}) :: evs).
      split; [now rewrite Hevs, <- app_assoc|].
      now apply QueryRun_interrupted with (rs := rs).
    + destruct oe as [e1|]; [discriminate|]. inversion Hres; subst ms1 ft1.
      repeat split; try assumption.
      exists (EvChat (first_request registry query) (inr {| choices := c :: cs |}) :: evs).
      split; [now rewrite Hevs, <- app_assoc|].
      cbn [app]. now apply QueryRun_completed.
Qed.

(** [processQuery] on a connected client: it returns a string, the answer
    of the [try] block or the error text of what the block threw. *)
Lemma processQuery_run registry query st :
  this_tools st = Some registry ->
  exists evs out st',
    processQuery_try registry query st = (out, st') /\
    calls st' = calls st ++ evs /\
    this_tools st' = this_tools st /\ console st' = console st /\
    QueryRun registry query evs out /\
    processQuery query st
    = (inr match out with
           | inr answer => answer
           | inl e => ("Error: " ++ error_text e)%string
           end, st').
Proof.
  intros Htools.
  destruct (processQuery_try registry query st) as [out st'] eqn:Htry.
  destruct (processQuery_try_run _ _ _ _ _ Htry) as (Ht & Hc & evs & Hevs & Hrun).
  exists evs, out, st'. repeat split; try assumption.
  unfold processQuery, bind, get_tools, try_catch. rewrite Htools, Htry.
  now destruct out.
Qed.

(** ** The shape of the record of calls *)

Lemma tool_results_app (l1 l2 : list Event) :
  tool_results (l1 ++ l2) = tool_results l1 ++ tool_results l2.
Proof.
  induction l1 as [|ev l1 IH]; [reflexivity|].
  destruct ev as [req reply|n a [e|res]]; cbn; now rewrite IH.
Qed.

(** What an interrupted round leaves in the record. *)
Lemma Interrupt_shape ms tc e tail :
  Interrupt ms tc e tail ->
  tail = [] \/
  (exists a, JSON_parse (call_args_text tc) = inr a /\
             tail = [EvTool (call_tool_name tc) a (inl e)]) \/
  (exists a result reply,
     JSON_parse (call_args_text tc) = inr a /\
     tail = [EvTool (call_tool_name tc) a (inr result);
             EvChat (follow_up_request (ms ++ [result_message result])) reply] /\
     (reply = inl e \/
      (reply = inr {| choices := [] |} /\ e = TypeError_undefined_message))).
Proof.
  intros H; inversion H; subst.
  - now left.
  - right; left. now exists a.
  - right; right. exists a, result, (inl e). auto.
  - right; right. exists a, result, (inr {| choices := [] |}). auto.
Qed.

(** The calls of a loop, whatever its outcome: completed rounds, then
    nothing or what an interrupted round leaves. *)
Lemma LoopRun_shape ms tcs rs evs oe :
  LoopRun ms tcs rs evs oe ->
  Forall round_parsed rs /\
  exists tail, evs = rounds_calls ms rs ++ tail /\
    match oe with
    | None => tail = [] /\ map round_call rs = tcs
    | Some e => exists tc rest, tcs = map round_call rs ++ tc :: rest /\
                                Interrupt (ms ++ map round_message rs) tc e tail
    end.
Proof.
  intros H; inversion H; subst; (split; [assumption|]).
  - exists []. now rewrite app_nil_r.
  - exists tail. split; [reflexivity|]. now exists tc, rest.
Qed.

(** In the record of a loop, a completion is a follow-up: it comes right
    after a tool result and its transcript is the transcript the loop
    started from followed by the tool results so far, in order. *)
Lemma follow_up_in_rounds rs : forall ms tail L1 req reply L2,
  (tail = [] \/ exists tc e, Interrupt (ms ++ map round_message rs) tc e tail) ->
  rounds_calls ms rs ++ tail = L1 ++ EvChat req reply :: L2 ->
  req = follow_up_request (ms ++ map result_message (tool_results L1)).
Proof.
  induction rs as [|r rs IH]; intros ms tail L1 req reply L2 Htail Heq.
  - cbn in Heq, Htail. rewrite app_nil_r in Htail.
    destruct Htail as [-> | (tc & e & Hint)].
    { destruct L1; discriminate. }
    apply Interrupt_shape in Hint.
    destruct Hint as [-> | [(a & _ & ->) | (a & res & rep & _ & -> & _)]].
    + destruct L1; discriminate.
    + destruct L1 as [|x [|y L1]]; discriminate.
    + destruct L1 as [|x [|y L1]]; try discriminate.
      * inversion Heq; subst. reflexivity.
      * inversion Heq. destruct L1; discriminate.
  - cbn [rounds_calls app] in Heq.
    destruct L1 as [|x [|y L1]].
    + discriminate.
    + inversion Heq; subst. reflexivity.
    + inversion Heq as [[Hx Hy Hrest]]; subst x y.
      apply IH in Hrest.
      * subst req. cbn [tool_results map]. now rewrite <- app_assoc.
      * destruct Htail as [-> | (tc & e & Hint)]; [now left|].
        right. exists tc, e. cbn [map] in Hint.
        now rewrite <- app_assoc.
Qed.

(** What follows a completed or an interrupted sequence of rounds starts
    with a call to the tool server. *)
Lemma rounds_start_with_tool ms rs tail :
  (tail = [] \/ exists tc e, Interrupt (ms ++ map round_message rs) tc e tail) ->
  rounds_calls ms rs ++ tail = [] \/
  exists n a r L, rounds_calls ms rs ++ tail = EvTool n a r :: L.
Proof.
  intros Htail. destruct rs as [|r rs]; cbn.
  - destruct Htail as [-> | (tc & e & Hint)]; [now left|].
    apply Interrupt_shape in Hint.
    destruct Hint as [-> | [(a & _ & ->) | (a & res & rep & _ & -> & _)]];
      [now left | right; eauto | right; eauto].
  - right; eauto.
Qed.

(** In the record of a loop, a result returned by the tool server is
    followed at once by one follow-up completion, whose transcript ends
    with that result, and the call after it, if any, is to the tool
    server. *)
Lemma tool_result_in_rounds rs : forall ms tail L1 n a res L2,
  (tail = [] \/ exists tc e, Interrupt (ms ++ map round_message rs) tc e tail) ->
  rounds_calls ms rs ++ tail = L1 ++ EvTool n a (inr res) :: L2 ->
  exists reply L3,
    L2 = EvChat (follow_up_request
                   (ms ++ map result_message (tool_results L1) ++ [result_message res]))
                reply :: L3 /\
    (L3 = [] \/ exists n' a' r' L4, L3 = EvTool n' a' r' :: L4).
Proof.
  induction rs as [|r rs IH]; intros ms tail L1 n a res L2 Htail Heq.
  - cbn in Heq, Htail. rewrite app_nil_r in Htail.
    destruct Htail as [-> | (tc & e & Hint)].
    { destruct L1; discriminate. }
    apply Interrupt_shape in Hint.
    destruct Hint as [-> | [(a0 & _ & ->) | (a0 & res0 & rep & _ & -> & _)]].
    + destruct L1; discriminate.
    + destruct L1 as [|x [|y L1]]; discriminate.
    + destruct L1 as [|x [|y L1]].
      * inversion Heq; subst. exists rep, []. split; [reflexivity | now left].
      * discriminate.
      * inversion Heq. destruct L1; discriminate.
  - cbn [rounds_calls app] in Heq.
    destruct L1 as [|x [|y L1]].
    + inversion Heq; subst.
      exists (inr (round_reply r)), (rounds_calls (ms ++ [round_message r]) rs ++ tail).
      split; [reflexivity|].
      apply rounds_start_with_tool.
      destruct Htail as [-> | (tc & e & Hint)]; [now left|].
      right. exists tc, e. cbn [map] in Hint. now rewrite <- app_assoc.
    + discriminate.
    + inversion Heq as [[Hx Hy Hrest]]; subst x y.
      apply IH in Hrest.
      * destruct Hrest as (reply & L3 & -> & Hnext).
        exists reply, L3. split; [|exact Hnext].
        cbn [tool_results map]. now rewrite <- !app_assoc.
      * destruct Htail as [-> | (tc & e & Hint)]; [now left|].
        right. exists tc, e. cbn [map] in Hint.
        now rewrite <- app_assoc.
Qed.

(** The record of a query: the first completion, the completed rounds,
    then nothing or what an interrupted round leaves. *)
Lemma QueryRun_calls registry query evs out :
  QueryRun registry query evs out ->
  exists reply rs tail,
    evs = EvChat (first_request registry query) reply
            :: rounds_calls [user_message (Text query)] rs ++ tail /\
    Forall round_parsed rs /\
    (tail = [] \/
     exists tc e, Interrupt ([user_message (Text query)] ++ map round_message rs) tc e tail).
Proof.
  intros H; inversion H as [e | | c cs rs made Hloop | c cs rs made e Hloop]; subst.
  - exists (inl e), [], []. repeat split; auto.
  - exists (inr {| choices := [] |}), [], []. repeat split; auto.
  - apply LoopRun_shape in Hloop. destruct Hloop as (Hp & tail & -> & -> & _).
    exists (inr {| choices := c :: cs |}), rs, []. repeat split; auto.
  - apply LoopRun_shape in Hloop.
    destruct Hloop as (Hp & tail & -> & tc & rest & _ & Hint).
    exists (inr {| choices := c :: cs |}), rs, tail. repeat split; eauto.
Qed.

(** A completion that is not the first of its query comes right after a
    tool result, which comes right after a completion, and its transcript
    is the transcript of that completion with the tool result appended. *)
Lemma follow_up_extends_previous rs : forall first r0 tail L1 req reply L2,
  (tail = [] \/
   exists tc e, Interrupt (messages first ++ map round_message rs) tc e tail) ->
  EvChat first r0 :: rounds_calls (messages first) rs ++ tail
  = L1 ++ EvChat req reply :: L2 ->
  L1 <> [] ->
  exists L0 prev prev_reply n a res,
    L1 = L0 ++ [EvChat prev prev_reply; EvTool n a (inr res)] /\
    req = follow_up_request (messages prev ++ [result_message res]).
Proof.
  induction rs as [|r rs IH]; intros first r0 tail L1 req reply L2 Htail Heq HL1.
  - cbn in Heq, Htail. rewrite app_nil_r in Htail.
    destruct L1 as [|x L1]; [contradiction|].
    inversion Heq as [[Hx Hrest]]; subst x. clear Heq.
    destruct Htail as [-> | (tc & e & Hint)].
    { destruct L1; discriminate. }
    apply Interrupt_shape in Hint.
    destruct Hint as [-> | [(a & _ & ->) | (a & res & rep & _ & -> & _)]].
    + destruct L1; discriminate.
    + destruct L1 as [|y [|z L1]]; discriminate.
    + destruct L1 as [|y [|z L1]]; try discriminate.
      * inversion Hrest; subst.
        now exists [], first, r0, (call_tool_name tc), a, res.
      * inversion Hrest. destruct L1; discriminate.
  - cbn [rounds_calls app] in Heq.
    destruct L1 as [|x L1]; [contradiction|].
    inversion Heq as [[Hx Hrest]]; subst x. clear Heq.
    destruct L1 as [|y [|z L1]].
    + discriminate.
    + inversion Hrest; subst.
      now exists [], first, r0, (call_tool_name (round_call r)), (round_args r),
                 (round_result r).
    + cbn [app] in Hrest. injection Hrest as Hy Hz Hr.
      assert (Hrest' :
        EvChat (follow_up_request (messages first ++ [round_message r]))
               (inr (round_reply r))
          :: rounds_calls (messages first ++ [round_message r]) rs ++ tail
        = (z :: L1) ++ EvChat req reply :: L2)
        by (cbn [app]; now rewrite <- Hz, Hr).
      subst y.
      specialize (IH (follow_up_request (messages first ++ [round_message r]))
                     (inr (round_reply r)) tail (z :: L1) req reply L2).
      cbn [messages follow_up_request] in IH.
      destruct IH as (L0 & prev & prev_reply & n & a & res & HL & Hreq).
      * destruct Htail as [-> | (tc & e & Hint)]; [now left|].
        right. exists tc, e. cbn [map] in Hint.
        now rewrite <- app_assoc.
      * exact Hrest'.
      * discriminate.
      * exists (EvChat first r0
                  :: EvTool (call_tool_name (round_call r)) (round_args r)
                            (inr (round_result r)) :: L0),
               prev, prev_reply, n, a, res.
        split; [cbn; now rewrite HL | exact Hreq].
Qed.

(** Every line of a completed round is in the answer, the trace line
    first and the text of the follow-up right after it. *)
Lemma answer_lines_round cs : forall (rs : list Round) r,
  length rs = length (flat_map calls_of cs) ->
  In r rs ->
  exists before after, answer_lines cs rs = before ++ round_lines r ++ after.
Proof.
  induction cs as [|c cs IH]; intros rs r Hlen Hin.
  - destruct rs; [contradiction | discriminate].
  - cbn [answer_lines]. cbn [flat_map] in Hlen. rewrite length_app in Hlen.
    rewrite <- (firstn_skipn (length (calls_of c)) rs) in Hin.
    apply in_app_or in Hin. destruct Hin as [Hin | Hin].
    + apply in_split in Hin. destruct Hin as (l1 & l2 & Hsplit).
      rewrite Hsplit, flat_map_app. cbn [flat_map].
      exists (pushed (reply_content (message c)) ++ flat_map round_lines l1),
             (flat_map round_lines l2
                ++ answer_lines cs (skipn (length (calls_of c)) rs)).
      now rewrite <- !app_assoc.
    + apply IH in Hin.
      * destruct Hin as (before & after & ->).
        exists (pushed (reply_content (message c))
                  ++ flat_map round_lines (firstn (length (calls_of c)) rs) ++ before),
               after.
        now rewrite <- !app_assoc.
      * rewrite length_skipn. lia.
Qed.

(** ** The transcript of the follow-up completions *)

(** Before a follow-up, the record of a loop holds the invocations of the
    first tool calls of the loop, in their order, each with the result it
    returned. *)
Lemma follow_up_after_requested_calls rs :
  forall ms tail tcs L1 req reply L2,
  Forall round_parsed rs ->
  (exists rest,
     tcs = map round_call rs ++ rest /\
     (tail = [] \/
      exists tc e rest',
        rest = tc :: rest' /\
        Interrupt (ms ++ map round_message rs) tc e tail)) ->
  rounds_calls ms rs ++ tail = L1 ++ EvChat req reply :: L2 ->
  exists done : list (ToolCall * json * CallToolResult),
    map (fun d => fst (fst d)) done = firstn (length done) tcs /\
    Forall (fun d => JSON_parse (call_args_text (fst (fst d))) = inr (snd (fst d)))
           done /\
    executed L1
    = map (fun d => (call_tool_name (fst (fst d)), snd (fst d))) done /\
    tool_results L1 = map snd done.
Proof.
  induction rs as [|r rs IH]; intros ms tail tcs L1 req reply L2 Hp Htcs Heq.
  - cbn in Heq, Htcs. destruct Htcs as (rest & -> & Htail).
    rewrite app_nil_r in Htail.
    destruct Htail as [-> | (tc & e & rest' & -> & Hint)].
    { destruct L1; discriminate. }
    apply Interrupt_shape in Hint.
    destruct Hint as [-> | [(a & _ & ->) | (a & res & rep & Ha & -> & _)]].
    + destruct L1; discriminate.
    + destruct L1 as [|x [|y L1]]; discriminate.
    + destruct L1 as [|x [|y L1]]; try discriminate.
      * inversion Heq; subst.
        exists [(tc, a, res)]. cbn. repeat split. now constructor.
      * inversion Heq. destruct L1; discriminate.
  - cbn [rounds_calls app] in Heq.
    inversion Hp as [|? ? Hr Hrs]; subst.
    destruct Htcs as (rest & -> & Htail).
    destruct L1 as [|x [|y L1]].
    + discriminate.
    + inversion Heq; subst.
      exists [(round_call r, round_args r, round_result r)].
      cbn. repeat split. now constructor.
    + cbn [app] in Heq. injection Heq as Hx Hy Hrest. subst x y.
      apply (IH _ tail (map round_call rs ++ rest)) in Hrest; [|exact Hrs|].
      * destruct Hrest as (done & Hcalls & Hparsed & Hexec & Hres).
        exists ((round_call r, round_args r, round_result r) :: done).
        cbn. rewrite Hcalls, Hexec, Hres. repeat split.
        constructor; [exact Hr | exact Hparsed].
      * exists rest. split; [reflexivity|].
        destruct Htail as [-> | (tc & e & rest' & -> & Hint)]; [now left|].
        right. exists tc, e, rest'. split; [reflexivity|].
        cbn [map] in Hint. now rewrite <- app_assoc.
Qed.

(** The record of a query whose first completion returned [response]:
    completed rounds of the first tool calls of [response], then nothing
    or what the interrupted round of the next one leaves. *)
Lemma QueryRun_requested_calls registry query response made out :
  QueryRun registry query
    (EvChat (first_request registry query) (inr response) :: made) out ->
  exists rs tail,
    made = rounds_calls [user_message (Text query)] rs ++ tail /\
    Forall round_parsed rs /\
    exists rest,
      all_calls response = map round_call rs ++ rest /\
      (tail = [] \/
       exists tc e rest',
         rest = tc :: rest' /\
         Interrupt ([user_message (Text query)] ++ map round_message rs) tc e tail).
Proof.
  intros H. unfold all_calls.
  inversion H as [ | | c cs rs made' Hloop | c cs rs made' e Hloop ]; subst.
  - exists [], []. cbn. repeat split; auto. exists []. auto.
  - apply LoopRun_shape in Hloop. destruct Hloop as (Hp & tail & -> & -> & Hm).
    exists rs, []. repeat split; auto.
    exists []. cbn [choices]. rewrite app_nil_r. auto.
  - apply LoopRun_shape in Hloop.
    destruct Hloop as (Hp & tail & -> & tc & rest & Htcs & Hint).
    exists rs, tail. repeat split; auto.
    exists (tc :: rest). cbn [choices]. split; [exact Htcs|].
    right. now exists tc, e, rest.
Qed.

(** C1, as the code has it: on a connected client, every completion of a
    query after the first is asked without tools, on the transcript made
    of the query followed by the tool results returned so far, each as a
    message of role user; it comes right after a tool result, and its
    transcript is the transcript of the completion before it with that one
    result appended.  The results are those of the first tool calls of the
    reply, in the order the reply requested them: the record before the
    follow-up holds, for each of these calls in turn, the invocation of
    the tool of that name on its parsed arguments and the result that came
    back.  No message of the assistant is ever in the transcript. *)
Theorem follow_up_transcript registry query st L1 req reply L2 :
  this_tools st = Some registry ->
  calls (snd (processQuery query st)) = calls st ++ L1 ++ EvChat req reply :: L2 ->
  L1 <> [] ->
  tools req = None /\
  messages req = user_message (Text query) :: map result_message (tool_results L1) /\
  (forall m, In m (messages req) -> role m = "user") /\
  (exists L0 prev prev_reply n a res,
     L1 = L0 ++ [EvChat prev prev_reply; EvTool n a (inr res)] /\
     messages req = messages prev ++ [result_message res]) /\
  exists response (done : list (ToolCall * json * CallToolResult)),
    (exists L1', L1 = EvChat (first_request registry query) (inr response) :: L1') /\
    map (fun d => fst (fst d)) done = firstn (length done) (all_calls response) /\
    Forall (fun d => JSON_parse (call_args_text (fst (fst d))) = inr (snd (fst d)))
           done /\
    executed L1
    = map (fun d => (call_tool_name (fst (fst d)), snd (fst d))) done /\
    tool_results L1 = map snd done /\
    messages req
    = user_message (Text query) :: map (fun d => result_message (snd d)) done.
Proof.
  intros Htools Hcalls HL1.
  destruct (processQuery_run registry query st Htools)
    as (evs & out & st' & _ & Hevs & _ & _ & Hrun & Hq).
  rewrite Hq in Hcalls. cbn [snd] in Hcalls. rewrite Hevs in Hcalls.
  apply app_inv_head in Hcalls.
  destruct (QueryRun_calls _ _ _ _ Hrun) as (reply0 & rs & tail & Hshape & _ & Htail).
  rewrite Hcalls in Hshape.
  assert (Hreq : req = follow_up_request
                         (user_message (Text query)
                            :: map result_message (tool_results L1))).
  { destruct L1 as [|x L1]; [contradiction|].
    cbn [app] in Hshape. injection Hshape as Hx Hrest. subst x.
    symmetry in Hrest.
    apply (follow_up_in_rounds rs _ tail L1 req reply L2 Htail) in Hrest.
    exact Hrest. }
  repeat match goal with |- _ /\ _ => split end.
  - now rewrite Hreq.
  - now rewrite Hreq.
  - rewrite Hreq. cbn [messages follow_up_request].
    intros m [<- | Hin]; [reflexivity|].
    apply in_map_iff in Hin. now destruct Hin as (res & <- & _).
  - symmetry in Hshape.
    apply (follow_up_extends_previous rs (first_request registry query)
             reply0 tail L1 req reply L2 Htail) in Hshape; [|exact HL1].
    destruct Hshape as (L0 & prev & prev_reply & n & a & res & HL & Hreq').
    exists L0, prev, prev_reply, n, a, res. split; [exact HL|].
    now rewrite Hreq'.
  - destruct L1 as [|x L1']; [contradiction|].
    cbn [app] in Hshape. injection Hshape as Hx Hrest. subst x.
    destruct reply0 as [e0|response].
    { exfalso. rewrite Hcalls in Hrun. cbn [app] in Hrun.
      inversion Hrun; subst; destruct L1'; discriminate. }
    rewrite Hcalls in Hrun. cbn [app] in Hrun.
    destruct (QueryRun_requested_calls _ _ _ _ _ Hrun)
      as (rs' & tail' & Hmade & Hp' & Hrest').
    symmetry in Hmade.
    destruct (follow_up_after_requested_calls rs' _ tail' (all_calls response)
                L1' req reply L2 Hp' Hrest' Hmade)
      as (done & Hd1 & Hd2 & Hd3 & Hd4).
    exists response, done.
    repeat match goal with |- _ /\ _ => split end; try assumption.
    + now exists L1'.
    + rewrite Hreq. cbn [messages follow_up_request tool_results].
      rewrite Hd4, map_map. reflexivity.
Qed.

(** ** One follow-up per tool call *)


(** ** Tool calls run one after the other *)

(** Splitting a short list of calls at a call to the tool server. *)
Ltac split_record H L1 :=
  destruct L1 as [|? [|? [|? [|? L1]]]];
  cbn [app] in H; try contradiction; try discriminate H;
  inversion H; subst; try (destruct L1; discriminate).

(** C4: when the tool calls of the reply are [A] then [B], the first call
    to the tool server is the one for [A]; any other call to the tool
    server is the one for [B], and before it the record holds exactly the
    call for [A], returned, and the follow-up completion of [A], returned,
    whose transcript is the query and the result of [A] and nothing else. *)
Theorem tool_calls_run_in_sequence registry query st out st' response A B made :
  processQuery_try registry query st = (out, st') ->
  calls st' = calls st ++ EvChat (first_request registry query) (inr response) :: made ->
  all_calls response = [A; B] ->
  (forall ev rest,
     made = ev :: rest ->
     exists argsA rA,
       ev = EvTool (call_tool_name A) argsA rA /\
       JSON_parse (call_args_text A) = inr argsA) /\
  (forall L1 n a r L2,
     made = L1 ++ EvTool n a r :: L2 ->
     L1 <> [] ->
     exists argsA resA replyA,
       L1 = [EvTool (call_tool_name A) argsA (inr resA);
             EvChat (follow_up_request
                       [user_message (Text query); result_message resA])
                    (inr replyA)] /\
       JSON_parse (call_args_text A) = inr argsA /\
       n = call_tool_name B /\
       JSON_parse (call_args_text B) = inr a).
Proof.
  intros Htry Hcalls HAB.
  destruct (processQuery_try_run _ _ _ _ _ Htry) as (_ & _ & evs & Hevs & Hrun).
  rewrite Hevs in Hcalls. apply app_inv_head in Hcalls. subst evs.
  assert (Hloop : exists rs oe,
            LoopRun [user_message (Text query)] [A; B] rs made oe).
  { inversion Hrun as [ | | c cs rs made' Hloop | c cs rs made' e Hloop ]; subst;
      unfold all_calls in HAB; cbn [choices] in HAB;
      [discriminate HAB | rewrite HAB in Hloop; eauto ..]. }
  destruct Hloop as (rs & oe & Hloop).
  apply LoopRun_shape in Hloop. destruct Hloop as (Hp & tail & -> & Hoe).
  destruct oe as [e|].
  - destruct Hoe as (tc & rest & Htcs & Hint).
    apply Interrupt_shape in Hint.
    destruct rs as [|r1 [|r2 rs]]; cbn [map app] in Htcs.
    + injection Htcs as <- <-.
      destruct Hint as [-> | [(a0 & Ha0 & ->) | (a0 & res0 & rep & Ha0 & -> & _)]];
        cbn [rounds_calls app]; split.
      * intros ev rest H; discriminate.
      * intros L1 n a r L2 H HL1. destruct L1; discriminate.
      * intros ev rest H; inversion H; subst; eauto.
      * intros L1 n a r L2 H HL1. split_record H L1.
      * intros ev rest H; inversion H; subst; eauto.
      * intros L1 n a r L2 H HL1. split_record H L1.
    + injection Htcs as -> -> <-.
      inversion Hp as [|? ? Hp1 _]; subst. unfold round_parsed in Hp1.
      destruct Hint as [-> | [(a0 & Ha0 & ->) | (a0 & res0 & rep & Ha0 & -> & _)]];
        cbn [rounds_calls app]; split.
      * intros ev rest H; inversion H; subst; eauto.
      * intros L1 n a r L2 H HL1. split_record H L1.
      * intros ev rest H; inversion H; subst; eauto.
      * intros L1 n a r L2 H HL1. split_record H L1.
        do 3 eexists. repeat split; eauto.
      * intros ev rest H; inversion H; subst; eauto.
      * intros L1 n a r L2 H HL1. split_record H L1.
        do 3 eexists. repeat split; eauto.
    + exfalso. apply (f_equal (@length _)) in Htcs.
      cbn in Htcs. rewrite length_app in Htcs. cbn in Htcs. lia.
  - destruct Hoe as (-> & Hmap).
    destruct rs as [|r1 [|r2 [|r3 rs]]]; try discriminate.
    injection Hmap as <- <-.
    inversion Hp as [|? ? Hp1 Hp']; subst. inversion Hp' as [|? ? Hp2 _]; subst.
    unfold round_parsed in Hp1, Hp2.
    cbn [rounds_calls app]; split.
    + intros ev rest H; inversion H; subst; eauto.
    + intros L1 n a r L2 H HL1. split_record H L1.
      do 3 eexists. repeat split; eauto.
Qed.

(** ** Failures *)

Lemma rounds_calls_return ms rs :
  Forall (fun ev => thrown_by ev = None) (rounds_calls ms rs).
Proof.
  revert ms. induction rs as [|r rs IH]; intros ms; cbn; auto.
Qed.

Lemma executed_app (l1 l2 : list Event) :
  executed (l1 ++ l2) = executed l1 ++ executed l2.
Proof.
  induction l1 as [|ev l1 IH]; [reflexivity|].
  destruct ev; cbn; now rewrite IH.
Qed.

Lemma executed_rounds ms rs :
  executed (rounds_calls ms rs)
  = map (fun r => (call_tool_name (round_call r), round_args r)) rs.
Proof.
  revert ms. induction rs as [|r rs IH]; intros ms; cbn; [reflexivity|].
  now rewrite IH.
Qed.

Lemma rounds_invocations (rs : list Round) :
  Forall round_parsed rs ->
  Forall2 invocation_of
    (map (fun r => (call_tool_name (round_call r), round_args r)) rs)
    (map round_call rs).
Proof.
  induction 1 as [|r rs Hr Hrs IH]; cbn; constructor; auto.
  now split.
Qed.

Lemma tool_call_in_rounds ms rs n a reply :
  In (EvTool n a reply) (rounds_calls ms rs) ->
  exists r, In r rs /\ n = call_tool_name (round_call r) /\
            a = round_args r /\ reply = inr (round_result r).
Proof.
  revert ms. induction rs as [|r rs IH]; intros ms; cbn; [contradiction|].
  intros [H | [H | H]].
  - inversion H; subst. exists r. auto.
  - discriminate.
  - apply IH in H. destruct H as (r' & Hin & H). exists r'. auto.
Qed.

(** A call that threw is the last call of its query, and what it threw is
    what the [try] block throws. *)
Lemma failed_call_is_last registry query evs out L1 ev L2 e :
  QueryRun registry query evs out ->
  evs = L1 ++ ev :: L2 ->
  thrown_by ev = Some e ->
  L2 = [] /\ out = inl e.
Proof.
  intros Hrun Hsplit Hev. revert Hsplit.
  inversion Hrun as [e0 | | c cs rs made Hloop | c cs rs made e0 Hloop]; subst;
    intros Hsplit.
  - destruct L1 as [|x L1]; [|destruct L1; discriminate].
    inversion Hsplit; subst. cbn in Hev. now inversion Hev.
  - destruct L1 as [|x L1]; [|destruct L1; discriminate].
    inversion Hsplit; subst. discriminate.
  - exfalso. apply LoopRun_shape in Hloop. destruct Hloop as (_ & tail & -> & -> & _).
    rewrite app_nil_r in Hsplit.
    assert (Hall : Forall (fun ev => thrown_by ev = None)
                     (EvChat (first_request registry query)
                             (inr {| choices := c :: cs |})
                        :: rounds_calls [user_message (Text query)] rs)).
    { constructor; [reflexivity | apply rounds_calls_return]. }
    rewrite Hsplit in Hall. apply Forall_app in Hall. destruct Hall as [_ Hall].
    inversion Hall; subst. congruence.
  - apply LoopRun_shape in Hloop.
    destruct Hloop as (_ & tail & -> & tc & rest & _ & Hint).
    change (EvChat (first_request registry query) (inr {| choices := c :: cs |})
              :: rounds_calls [user_message (Text query)] rs ++ tail)
      with ((EvChat (first_request registry query) (inr {| choices := c :: cs |})
               :: rounds_calls [user_message (Text query)] rs) ++ tail) in Hsplit.
    apply app_eq_app in Hsplit. destruct Hsplit as (l & [[Hgood Htail] | [HL1 Htail]]).
    + destruct l as [|y l].
      * rewrite app_nil_r in Hgood. cbn in Htail. subst L1.
        apply Interrupt_shape in Hint.
        destruct Hint as [-> | [(a & _ & ->) | (a & res & rep & _ & -> & Hrep)]].
        -- discriminate.
        -- inversion Htail; subst. cbn in Hev. now inversion Hev.
        -- inversion Htail; subst. discriminate.
      * exfalso.
        assert (Hall : Forall (fun ev => thrown_by ev = None)
                         (EvChat (first_request registry query)
                                 (inr {| choices := c :: cs |})
                            :: rounds_calls [user_message (Text query)] rs)).
        { constructor; [reflexivity | apply rounds_calls_return]. }
        rewrite Hgood in Hall. apply Forall_app in Hall. destruct Hall as [_ Hall].
        cbn in Htail. inversion Htail; subst y.
        inversion Hall; subst. congruence.
    + apply Interrupt_shape in Hint.
      destruct Hint as [-> | [(a & _ & ->) | (a & res & rep & _ & -> & Hrep)]].
      * destruct l; discriminate.
      * destruct l as [|y [|z l]]; try discriminate.
        inversion Htail; subst. cbn in Hev. now inversion Hev.
      * destruct l as [|y [|z l]]; try discriminate.
        -- inversion Htail; subst. discriminate.
        -- inversion Htail; subst.
           destruct Hrep as [-> | [-> _]]; cbn in Hev; [now inversion Hev | discriminate].
        -- inversion Htail. destruct l; discriminate.
Qed.

(** C7: when a call to the chat endpoint throws during a query, that call
    is the last call of the query (nothing is tried again), [processQuery]
    returns the string ["Error: "] followed by the message of what was
    thrown, and the session loop prints that string and goes on with the
    next line. *)
Theorem gateway_failure_reported registry query st L1 req e L2 rest :
  this_tools st = Some registry ->
  (toLowerCase query =? "quit")%string = false ->
  calls (snd (processQuery query st)) = calls st ++ L1 ++ EvChat req (inl e) :: L2 ->
  L2 = [] /\
  fst (processQuery query st) = inr ("Error: " ++ error_text e)%string /\
  chatLoop_while (query :: rest) st
  = chatLoop_while rest
      (snd (console_log (newline ++ "Error: " ++ error_text e)%string
                        (snd (processQuery query st)))).
Proof.
  intros Htools Hquit Hcalls.
  destruct (processQuery_run registry query st Htools)
    as (evs & out & st' & _ & Hevs & _ & _ & Hrun & Hq).
  rewrite Hq in Hcalls |- *. cbn [fst snd] in Hcalls |- *.
  rewrite Hevs in Hcalls. apply app_inv_head in Hcalls.
  destruct (failed_call_is_last _ _ _ _ _ _ _ e Hrun Hcalls eq_refl) as [-> ->].
  repeat match goal with |- _ /\ _ => split end; try reflexivity.
  cbn [chatLoop_while]. rewrite Hquit.
  unfold bind, try_catch. rewrite Hq. reflexivity.
Qed.

(** ** A failing tool call *)

(** C2, as the code has it: a result the tool server returns, whatever its
    [isError] flag, is a regular result: the follow-up completion is asked
    right after it, on the transcript that ends with it, and when the
    query completes the answer holds the trace line with the name of the
    tool.  A call to the tool server that throws is the last call of the
    query: no follow-up is asked, and [processQuery] returns ["Error: "]
    followed by the message of what was thrown. *)
Theorem tool_failure_handling registry query st out st' evs :
  this_tools st = Some registry ->
  processQuery_try registry query st = (out, st') ->
  calls st' = calls st ++ evs ->
  (forall L1 n a res L2,
     evs = L1 ++ EvTool n a (inr res) :: L2 ->
     (exists reply L3,
        L2 = EvChat (follow_up_request
                       (user_message (Text query)
                          :: map result_message (tool_results L1)
                          ++ [result_message res]))
                    reply :: L3) /\
     (forall answer, out = inr answer ->
        fst (processQuery query st) = inr answer /\
        exists lines, answer = join newline lines /\ In (trace_line n a) lines)) /\
  (forall L1 n a e L2,
     evs = L1 ++ EvTool n a (inl e) :: L2 ->
     L2 = [] /\ out = inl e /\
     fst (processQuery query st) = inr ("Error: " ++ error_text e)%string).
Proof.
  intros Htools Htry Hcalls.
  destruct (processQuery_try_run _ _ _ _ _ Htry) as (_ & _ & evs' & Hevs & Hrun).
  rewrite Hevs in Hcalls. apply app_inv_head in Hcalls. subst evs'.
  assert (Hq : processQuery query st
               = (inr match out with
                      | inr answer => answer
                      | inl e => ("Error: " ++ error_text e)%string
                      end, st')).
  { unfold processQuery, bind, get_tools, try_catch. rewrite Htools, Htry.
    now destruct out. }
  split.
  - intros L1 n a res L2 Hsplit. split.
    + destruct (QueryRun_calls _ _ _ _ Hrun) as (reply0 & rs & tail & Hshape & _ & Htail).
      rewrite Hsplit in Hshape.
      destruct L1 as [|x L1]; [discriminate|].
      cbn [app] in Hshape. injection Hshape as Hx Hrest. subst x.
      symmetry in Hrest.
      apply (tool_result_in_rounds rs _ tail L1 n a res L2 Htail) in Hrest.
      destruct Hrest as (reply & L3 & -> & _). now exists reply, L3.
    + intros answer ->. rewrite Hq. split; [reflexivity|].
      revert Hsplit.
      inversion Hrun as [ | | c cs rs made Hloop | ]; subst. intros Hsplit.
      apply LoopRun_shape in Hloop. destruct Hloop as (Hp & tail & -> & -> & Hm).
      rewrite app_nil_r in Hsplit.
      assert (Hin : In (EvTool n a (inr res))
                       (rounds_calls [user_message (Text query)] rs)).
      { destruct L1 as [|x L1]; [discriminate|].
        cbn [app] in Hsplit. injection Hsplit as _ Hrest.
        rewrite Hrest. apply in_elt. }
      apply tool_call_in_rounds in Hin.
      destruct Hin as (r & Hin & -> & -> & _).
      destruct (answer_lines_round (c :: cs) rs r) as (before & after & Hlines);
        [now rewrite <- Hm, length_map | exact Hin |].
      exists (answer_lines (c :: cs) rs). split; [reflexivity|].
      rewrite Hlines. apply in_or_app. right. now left.
  - intros L1 n a e L2 Hsplit.
    destruct (failed_call_is_last _ _ _ _ _ _ _ e Hrun Hsplit eq_refl) as [-> ->].
    rewrite Hq. now repeat split.
Qed.

(** ** Candidates *)


(** ** Malformed arguments *)

Lemma app_cons_compare {A} (pre : list A) (tc : A) post : forall xs y rest,
  pre ++ tc :: post = xs ++ y :: rest ->
  (length xs < length pre /\ xs = firstn (length xs) pre /\
   nth_error pre (length xs) = Some y) \/
  (xs = pre /\ y = tc) \/
  (length pre < length xs /\ nth_error xs (length pre) = Some tc).
Proof.
  induction pre as [|p pre IH]; intros [|x xs] y rest H; cbn in H.
  - inversion H; subst. right; left. now split.
  - inversion H; subst. right; right. cbn. split; [lia | reflexivity].
  - inversion H; subst. left. cbn. repeat split. lia.
  - injection H as <- H. apply IH in H.
    destruct H as [(Hl & Hf & Hn) | [(-> & ->) | (Hl & Hn)]].
    + left. cbn. repeat split; [lia | now f_equal | exact Hn].
    + right; left. now split.
    + right; right. cbn. split; [lia | exact Hn].
Qed.

Lemma firstn_succ_nth_error {A} (l : list A) : forall n x,
  nth_error l n = Some x -> firstn (S n) l = firstn n l ++ [x].
Proof.
  induction l as [|a l IH]; intros [|n] x H; cbn in *; try discriminate.
  - now inversion H.
  - f_equal. now apply IH.
Qed.

(** C10, as the code has it: when a tool call [tc] of the reply has
    arguments that are not JSON, [processQuery] on a connected client
    still returns a string, ["Error: "] followed by
    the message of what was thrown.  The rounds it completed are rounds of
    tool calls that come before [tc], in order; when all of them completed,
    nothing more is called and what was thrown is the exception of
    [JSON_parse]; otherwise a call before [tc] was interrupted.  Every
    invocation of the tool server is for a call before [tc]: neither [tc]
    nor a call after it is executed. *)
Theorem malformed_arguments_abort_query registry query st response pre tc post e made :
  this_tools st = Some registry ->
  calls (snd (processQuery query st))
  = calls st ++ EvChat (first_request registry query) (inr response) :: made ->
  all_calls response = pre ++ tc :: post ->
  JSON_parse (call_args_text tc) = inl e ->
  exists rs tail e',
    fst (processQuery query st) = inr ("Error: " ++ error_text e')%string /\
    made = rounds_calls [user_message (Text query)] rs ++ tail /\
    length rs <= length pre /\
    map round_call rs = firstn (length rs) pre /\
    (length rs = length pre -> tail = [] /\ e' = e) /\
    (length rs < length pre ->
     exists tc0, nth_error pre (length rs) = Some tc0 /\
       Interrupt ([user_message (Text query)] ++ map round_message rs) tc0 e' tail) /\
    exists k, k <= length pre /\
      Forall2 invocation_of (executed made) (firstn k pre).
Proof.
  intros Htools Hcalls Hall Hbad.
  destruct (processQuery_run registry query st Htools)
    as (evs & out & st' & _ & Hevs & _ & _ & Hrun & Hq).
  rewrite Hq in Hcalls |- *. cbn [fst snd] in Hcalls |- *.
  rewrite Hevs in Hcalls. apply app_inv_head in Hcalls. subst evs.
  unfold all_calls in Hall.
  inversion Hrun as [ | | c cs rs made' Hloop | c cs rs made' e' Hloop ]; subst;
    cbn [choices] in Hall.
  - destruct pre; discriminate.
  - (* a completed run would have parsed the arguments of [tc] *)
    exfalso. apply LoopRun_shape in Hloop.
    destruct Hloop as (Hp & tail & _ & _ & Hm).
    rewrite Hall in Hm.
    assert (Hin : In tc (map round_call rs)) by (rewrite Hm; apply in_elt).
    apply in_map_iff in Hin. destruct Hin as (r & <- & Hin).
    rewrite Forall_forall in Hp. apply Hp in Hin.
    unfold round_parsed in Hin. congruence.
  - apply LoopRun_shape in Hloop.
    destruct Hloop as (Hp & tail & -> & tc' & rest & Htcs & Hint).
    rewrite Hall in Htcs. apply app_cons_compare in Htcs.
    rewrite length_map in Htcs.
    exists rs, tail, e'. split; [reflexivity|]. split; [reflexivity|].
    assert (Hexec : executed (rounds_calls [user_message (Text query)] rs ++ tail)
                    = map (fun r => (call_tool_name (round_call r), round_args r)) rs
                        ++ executed tail)
      by (now rewrite executed_app, executed_rounds).
    destruct Htcs as [(Hl & Hf & Hn) | [(Hpre & ->) | (Hl & Hn)]].
    + (* interrupted before [tc] *)
      repeat match goal with |- _ /\ _ => split end.
      * lia.
      * exact Hf.
      * intros Heq. lia.
      * intros _. exists tc'. split; [exact Hn | exact Hint].
      * rewrite Hexec.
        pose proof (rounds_invocations rs Hp) as Hrounds. rewrite Hf in Hrounds.
        apply Interrupt_shape in Hint.
        destruct Hint as [-> | [(a & Ha & ->) | (a & res & rep & Ha & -> & _)]]; cbn [executed].
        -- exists (length rs). split; [lia|]. now rewrite app_nil_r.
        -- exists (S (length rs)). split; [lia|].
           rewrite (firstn_succ_nth_error _ _ _ Hn).
           apply Forall2_app; [exact Hrounds|]. constructor; [|constructor].
           now split.
        -- exists (S (length rs)). split; [lia|].
           rewrite (firstn_succ_nth_error _ _ _ Hn).
           apply Forall2_app; [exact Hrounds|]. constructor; [|constructor].
           now split.
    + (* every call before [tc] completed: the exception is that of the parser *)
      assert (Hlen : length rs = length pre) by (now rewrite <- Hpre, length_map).
      assert (Htail : tail = [] /\ e' = e).
      { inversion Hint; subst; try congruence. split; [reflexivity | congruence]. }
      destruct Htail as [-> ->].
      repeat match goal with |- _ /\ _ => split end; try reflexivity.
      * lia.
      * now rewrite Hlen, firstn_all.
      * intros _. now split.
      * intros Hlt. lia.
      * exists (length pre). split; [lia|].
        rewrite Hexec, firstn_all, <- Hpre. cbn [executed]. rewrite app_nil_r.
        now apply rounds_invocations.
    + (* the round of [tc] cannot have completed *)
      exfalso. rewrite nth_error_map in Hn.
      destruct (nth_error rs (length pre)) as [r|] eqn:Hr; [|discriminate].
      inversion Hn; subst tc.
      apply nth_error_In in Hr. rewrite Forall_forall in Hp. apply Hp in Hr.
      unfold round_parsed in Hr. congruence.
Qed.

(** ** The tool registry adapter *)

(** C8, as the code has it: the tool registry adapter is a total,
    order-preserving map over the descriptor list.  It keeps the length, sends the descriptor at each
    position to its CallableTool at the same position, keeps the names in
    order (two descriptors of the same name are both kept), leaves a
    missing description missing, distributes over concatenation, sends a
    single descriptor to a single CallableTool of the same name and the
    empty list to the empty list. *)
Theorem adapt_total_order_preserving :
  (forall ds, length (adapt ds) = length ds) /\
  (forall ds i d, nth_error ds i = Some d ->
     nth_error (adapt ds) i = Some (adapt_tool d)) /\
  (forall ds, map (fun t => fn_name (function t)) (adapt ds) = map tool_name ds) /\
  (forall d, type (adapt_tool d) = "function" /\
             fn_name (function (adapt_tool d)) = tool_name d /\
             fn_description (function (adapt_tool d)) = tool_description d /\
             fn_parameters (function (adapt_tool d)) = tool_inputSchema d) /\
  (forall d, tool_description d = None ->
     fn_description (function (adapt_tool d)) = None) /\
  (forall ds1 ds2, adapt (ds1 ++ ds2) = adapt ds1 ++ adapt ds2) /\
  (forall d1 d2, tool_name d1 = tool_name d2 ->
     adapt [d1; d2] = [adapt_tool d1; adapt_tool d2] /\
     fn_name (function (adapt_tool d1)) = fn_name (function (adapt_tool d2))) /\
  (forall d, exists t, adapt [d] = [t] /\ fn_name (function t) = tool_name d) /\
  adapt [] = [].
Proof.
  unfold adapt. repeat match goal with |- _ /\ _ => split end.
  - intros ds. apply length_map.
  - intros ds i d H. now apply map_nth_error.
  - intros ds. rewrite map_map. reflexivity.
  - intros d. now repeat split.
  - intros d H. exact H.
  - intros ds1 ds2. apply map_app.
  - intros d1 d2 H. split; [reflexivity | exact H].
  - intros d. exists (adapt_tool d). now split.
  - reflexivity.
Qed.

(** ** A reply without tool calls *)

Lemma join_pushed (v : option string) : join newline (pushed v) = text_of v.
Proof. destruct v as [[|a s]|]; reflexivity. Qed.

(** C6, as the code has it: when the reply of the Gateway is one candidate
    without tool calls, [processQuery] makes no other call and returns the text of the reply,
    nothing added; an absent text gives the empty string. *)
Theorem no_tool_calls_answer_is_text registry query st c w :
  this_tools st = Some registry ->
  openai_chat_completions_create (first_request registry query) (world st)
  = (inr {| choices := [c] |}, w) ->
  calls_of c = [] ->
  processQuery query st
  = (inr (text_of (reply_content (message c))),
     {| world := w; this_tools := this_tools st;
        calls := calls st ++ [EvChat (first_request registry query)
                                      (inr {| choices := [c] |})];
        console := console st |}).
Proof.
  intros Htools Hchat Hcalls.
  unfold processQuery, bind, get_tools, try_catch. rewrite Htools.
  unfold processQuery_try, bind, create.
  fold (first_request registry query). rewrite Hchat. cbn -[for_of].
  cbn [for_of]. unfold bind. rewrite choiceStep_eq, Hcalls. cbn.
  rewrite Htools. do 2 f_equal. apply join_pushed.
Qed.

(** ** The session loop *)

Lemma chatLoop_while_returns lines : forall st,
  exists r st', chatLoop_while lines st = (inr r, st').
Proof.
  induction lines as [|l lines IH]; intros st; cbn.
  - now exists AtPrompt, st.
  - destruct (toLowerCase l =? "quit")%string.
    + now exists Quit, st.
    + unfold bind, try_catch.
      destruct (processQuery l st) as [[e|answer] st1]; cbn; apply IH.
Qed.

Lemma chatLoop_while_quits (s : string) pre rest :
  toLowerCase s = "quit" ->
  forall st, exists st', chatLoop_while (pre ++ s :: rest) st = (inr Quit, st').
Proof.
  intros Hs. induction pre as [|l pre IH]; intros st; cbn.
  - rewrite Hs. cbn. now exists st.
  - destruct (toLowerCase l =? "quit")%string.
    + now exists st.
    + unfold bind, try_catch.
      destruct (processQuery l st) as [[e|answer] st1]; cbn; apply IH.
Qed.

Lemma chatLoop_while_prefix (s : string) pre rest :
  toLowerCase s = "quit" ->
  Forall (fun l => toLowerCase l <> "quit") pre ->
  forall st, exists st',
    chatLoop_while pre st = (inr AtPrompt, st') /\
    chatLoop_while (pre ++ s :: rest) st = (inr Quit, st').
Proof.
  intros Hs Hpre. induction Hpre as [|l pre Hl Hpre IH]; intros st; cbn.
  - rewrite Hs. cbn. now exists st.
  - destruct (String.eqb_spec (toLowerCase l) "quit") as [Heq|_]; [contradiction|].
    unfold bind, try_catch.
    destruct (processQuery l st) as [[e|answer] st1]; cbn; apply IH.
Qed.

(** C9, as the code has it: a line that is ["quit"] in any letter casing
    ends the session loop in the state the loop was in when it read the
    line, so no call to the Gateway is made for it; read after lines that
    are not ["quit"], it leaves the state those lines left.  [main] then
    runs [cleanup] on the state the loop ended in, and the process exits
    with code 0 when [cleanup] returns and with code 1 when it throws; so
    it exits with code 0 when [mcp.close()] never throws. *)
Theorem quit_ends_session (s : string) pre rest argv st :
  toLowerCase s = "quit" ->
  (forall st1, chatLoop_while (s :: rest) st1 = (inr Quit, st1)) /\
  (Forall (fun l => toLowerCase l <> "quit") pre ->
   exists st1, chatLoop_while pre st = (inr AtPrompt, st1) /\
               chatLoop_while (pre ++ s :: rest) st = (inr Quit, st1)) /\
  (forall st0,
     connectToFileSystemServer (skipn 2 argv) st = (inr tt, st0) ->
     exists st2,
       chatLoop (pre ++ s :: rest) st0 = (inr Quit, st2) /\
       (Forall (fun l => toLowerCase l <> "quit") pre ->
        chatLoop pre st0 = (inr AtPrompt, st2)) /\
       main argv (pre ++ s :: rest) st
       = (match fst (cleanup st2) with
          | inr _ => Exited 0
          | inl _ => Exited 1
          end, snd (cleanup st2))) /\
  (exists st2,
     main argv (pre ++ s :: rest) st
     = (match fst (cleanup st2) with
        | inr _ => Exited 0
        | inl _ => Exited 1
        end, snd (cleanup st2))) /\
  ((forall w, fst (mcp_close w) = inr tt) ->
   fst (main argv (pre ++ s :: rest) st) = Exited 0).
Proof.
  intros Hs.
  assert (Hconnected : forall st0,
            connectToFileSystemServer (skipn 2 argv) st = (inr tt, st0) ->
            exists st2,
              chatLoop (pre ++ s :: rest) st0 = (inr Quit, st2) /\
              (Forall (fun l => toLowerCase l <> "quit") pre ->
               chatLoop pre st0 = (inr AtPrompt, st2)) /\
              main argv (pre ++ s :: rest) st
              = (match fst (cleanup st2) with
                 | inr _ => Exited 0
                 | inl _ => Exited 1
                 end, snd (cleanup st2))).
  { intros st0 Hconn. unfold chatLoop, bind at 1 2.
    destruct (console_log_all banner st0) as [[e|u'] st1] eqn:Hb.
    { cbn in Hb. discriminate. }
    destruct (chatLoop_while_quits s pre rest Hs st1) as [st2 Hq].
    exists st2. split; [exact Hq|]. split.
    - intros Hpre.
      destruct (chatLoop_while_prefix s pre rest Hs Hpre st1) as (st2' & Hp & Hq').
      rewrite Hq in Hq'. inversion Hq'; subst st2'. exact Hp.
    - unfold main, bind at 1. rewrite Hconn.
      unfold chatLoop, bind at 1. rewrite Hb, Hq.
      destruct (cleanup st2) as [[e|u] st3]; reflexivity. }
  assert (Hmain : exists st2,
            main argv (pre ++ s :: rest) st
            = (match fst (cleanup st2) with
               | inr _ => Exited 0
               | inl _ => Exited 1
               end, snd (cleanup st2))).
  { destruct (connectToFileSystemServer (skipn 2 argv) st) as [[e|[]] st0] eqn:Hconn.
    - exists st0. unfold main, bind at 1. rewrite Hconn.
      destruct (cleanup st0) as [[e'|u] st3]; reflexivity.
    - destruct (Hconnected st0 eq_refl) as (st2 & _ & _ & H). now exists st2. }
  repeat match goal with |- _ /\ _ => split end.
  - intros st1. cbn. now rewrite Hs.
  - intros Hpre. now apply chatLoop_while_prefix.
  - exact Hconnected.
  - exact Hmain.
  - intros Hclose. destruct Hmain as (st2 & ->). cbn [fst].
    unfold cleanup, in_world. specialize (Hclose (world st2)).
    destruct (mcp_close (world st2)) as [r w]. cbn in Hclose. subst r.
    reflexivity.
Qed.

End Properties.

(** * Runs in the scripted setting *)

Section ScenarioRuns.

Import Scenario.
#[local] Existing Instance scenario_JSON.
#[local] Existing Instance scenario_Collaborators.

(** The end-to-end scenario: one tool call, its result, the follow-up. *)
Example weather_run :
  processQuery weather_query (connected weather_world)
  = (inr weather_answer,
     {| world := script [] []; this_tools := Some registry;
        calls := weather_calls; console := [] |}).
Proof. vm_compute. reflexivity. Qed.

Example quit_casings :
  map toLowerCase ["quit"; "QUIT"; "Quit"] = ["quit"; "quit"; "quit"].
Proof. reflexivity. Qed.

Example adapt_weather_registry :
  map (fun t => fn_name (function t)) (adapt [get_weather; get_weather])
  = ["get-weather"; "get-weather"].
Proof. reflexivity. Qed.

(** The follow-up of the weather query is asked on the query and the
    result of the tool, two messages of role user. *)
Lemma follow_up_transcript_witness :
  this_tools (connected weather_world) = Some registry /\
  calls (snd (processQuery weather_query (connected weather_world)))
  = calls (connected weather_world)
      ++ [weather_first; weather_tool] ++ EvChat weather_follow_up tell_beijing :: [] /\
  [weather_first; weather_tool] <> [] /\
  tools weather_follow_up = None /\
  messages weather_follow_up
  = user_message (Text weather_query)
      :: map result_message (tool_results [weather_first; weather_tool]).
Proof.
  assert (H1 : this_tools (connected weather_world) = Some registry) by reflexivity.
  assert (H2 : calls (snd (processQuery weather_query (connected weather_world)))
               = calls (connected weather_world)
                   ++ [weather_first; weather_tool]
                   ++ EvChat weather_follow_up tell_beijing :: [])
    by (vm_compute; reflexivity).
  assert (H3 : [weather_first; weather_tool] <> []) by discriminate.
  split; [exact H1|]. split; [exact H2|]. split; [exact H3|].
  destruct (follow_up_transcript registry weather_query (connected weather_world)
              [weather_first; weather_tool] weather_follow_up tell_beijing []
              H1 H2 H3) as (Ht & Hm & _).
  split; [exact Ht | exact Hm].
Defined.

(** C1 as stated fails on the weather query: the transcript of the
    follow-up is the query and the tool result; it is not the query, a
    message of the assistant and the tool result, and none of its
    messages has the role assistant. *)
Lemma follow_up_lacks_assistant_message :
  calls (snd (processQuery weather_query (connected weather_world))) = weather_calls /\
  messages weather_follow_up
  = [user_message (Text weather_query); result_message sunny] /\
  (forall m, In m (messages weather_follow_up) -> role m <> "assistant") /\
  ~ (exists m, role m = "assistant" /\
       messages weather_follow_up
       = [user_message (Text weather_query)] ++ [m] ++ [result_message sunny]).
Proof.
  split; [vm_compute; reflexivity|]. split; [reflexivity|]. split.
  - intros m [<- | [<- | []]]; discriminate.
  - intros (m & _ & H). discriminate H.
Qed.

(** The tool server reports a failure in its result: the follow-up is
    asked and the answer holds the trace line. *)
Lemma tool_failure_handling_witness :
  this_tools (connected reported_failure_world) = Some registry /\
  calls (snd (processQuery_try registry weather_query (connected reported_failure_world)))
  = calls (connected reported_failure_world) ++ reported_failure_calls /\
  isError lookup_failed = true /\
  fst (processQuery weather_query (connected reported_failure_world))
  = inr reported_failure_answer /\
  exists lines,
    reported_failure_answer = join newline lines /\ In beijing_trace lines.
Proof.
  set (st := connected reported_failure_world).
  set (run := processQuery_try registry weather_query st).
  assert (H1 : this_tools st = Some registry) by reflexivity.
  assert (H2 : run = (fst run, snd run)) by apply surjective_pairing.
  assert (H3 : calls (snd run) = calls st ++ reported_failure_calls)
    by (vm_compute; reflexivity).
  assert (H4 : fst run = inr reported_failure_answer) by (vm_compute; reflexivity).
  split; [exact H1|]. split; [exact H3|]. split; [reflexivity|].
  destruct (tool_failure_handling registry weather_query st (fst run) (snd run)
              reported_failure_calls H1 H2 H3) as [Hreturned _].
  destruct (Hreturned [weather_first] "get-weather" beijing_3_days lookup_failed
              [EvChat (follow_up_request [user_message (Text weather_query);
                                          result_message lookup_failed])
                      apologise] eq_refl) as [_ Hanswer].
  exact (Hanswer reported_failure_answer H4).
Defined.

(** C2 as stated fails when the call to the tool server throws: the query
    is aborted, no follow-up is asked, and the answer is the error text,
    in which the name of the tool does not occur. *)
Lemma thrown_tool_failure_aborts_query :
  fst (processQuery weather_query (connected thrown_failure_world))
  = inr "Error: Connection error." /\
  calls (snd (processQuery weather_query (connected thrown_failure_world)))
  = [weather_first; EvTool "get-weather" beijing_3_days (inl connection_error)] /\
  follow_ups (calls (snd (processQuery weather_query (connected thrown_failure_world))))
  = [] /\
  index 0 "get-weather" "Error: Connection error." = None.
Proof. repeat split; vm_compute; reflexivity. Qed.


(** Two tool calls: the second call to the tool server comes after the
    first call and its follow-up, which saw the first result only. *)
Lemma tool_calls_run_in_sequence_witness :
  calls (snd (processQuery_try registry weather_query (connected both_world)))
  = calls (connected both_world)
      ++ EvChat (first_request registry weather_query)
                (inr {| choices := [reply None (Some [beijing_call; shanghai_call])] |})
      :: both_made /\
  all_calls {| choices := [reply None (Some [beijing_call; shanghai_call])] |}
  = [beijing_call; shanghai_call] /\
  exists argsA resA replyA,
    [weather_tool; both_follow_up_A]
    = [EvTool (call_tool_name beijing_call) argsA (inr resA);
       EvChat (follow_up_request
                 [user_message (Text weather_query); result_message resA])
              (inr replyA)] /\
    JSON_parse (call_args_text beijing_call) = inr argsA /\
    "get-weather" = call_tool_name shanghai_call /\
    JSON_parse (call_args_text shanghai_call) = inr shanghai_1_day.
Proof.
  set (st := connected both_world).
  set (run := processQuery_try registry weather_query st).
  set (response := {| choices := [reply None (Some [beijing_call; shanghai_call])] |}).
  assert (H2 : run = (fst run, snd run)) by apply surjective_pairing.
  assert (H3 : calls (snd run)
               = calls st ++ EvChat (first_request registry weather_query) (inr response)
                   :: both_made)
    by (vm_compute; reflexivity).
  assert (H4 : all_calls response = [beijing_call; shanghai_call]) by reflexivity.
  split; [exact H3|]. split; [exact H4|].
  destruct (tool_calls_run_in_sequence registry weather_query st (fst run) (snd run)
              response beijing_call shanghai_call both_made H2 H3 H4) as [_ Hsecond].
  apply (Hsecond [weather_tool; both_follow_up_A] "get-weather" shanghai_1_day
                 (inr rainy)
                 [EvChat (follow_up_request
                            [user_message (Text weather_query);
                             result_message sunny; result_message rainy])
                         tell_shanghai] eq_refl).
  discriminate.
Defined.


(** A reply of one candidate without tool calls is returned as it is. *)
Lemma no_tool_calls_answer_is_text_witness :
  this_tools (connected one_candidate_world) = Some registry /\
  calls_of (reply (Some "Sunny.") None) = [] /\
  fst (processQuery weather_query (connected one_candidate_world)) = inr "Sunny.".
Proof.
  split; [reflexivity|]. split; [reflexivity|].
  rewrite (no_tool_calls_answer_is_text registry weather_query
             (connected one_candidate_world) (reply (Some "Sunny.") None)
             (script [] []) eq_refl eq_refl eq_refl).
  reflexivity.
Defined.

(** The chat endpoint rejects the key: one call, the error text, and the
    session goes on to the next line. *)
Lemma gateway_failure_reported_witness :
  this_tools (connected rejected_world) = Some registry /\
  (toLowerCase weather_query =? "quit")%string = false /\
  calls (snd (processQuery weather_query (connected rejected_world)))
  = calls (connected rejected_world) ++ [] ++ rejected_call :: [] /\
  fst (processQuery weather_query (connected rejected_world))
  = inr "Error: 401 Authentication Fails" /\
  chatLoop_while [weather_query; "quit"] (connected rejected_world)
  = chatLoop_while ["quit"]
      (snd (console_log (newline ++ "Error: 401 Authentication Fails")%string
              (snd (processQuery weather_query (connected rejected_world))))).
Proof.
  assert (H1 : this_tools (connected rejected_world) = Some registry) by reflexivity.
  assert (H2 : (toLowerCase weather_query =? "quit")%string = false) by reflexivity.
  assert (H3 : calls (snd (processQuery weather_query (connected rejected_world)))
               = calls (connected rejected_world) ++ [] ++ rejected_call :: [])
    by (vm_compute; reflexivity).
  split; [exact H1|]. split; [exact H2|]. split; [exact H3|].
  destruct (gateway_failure_reported registry weather_query (connected rejected_world)
              [] (first_request registry weather_query) authentication_error []
              ["quit"] H1 H2 H3) as (_ & Hanswer & Hloop).
  split; [exact Hanswer | exact Hloop].
Defined.

(** [QUIT] after one query: the loop ends and [main] exits with code 0. *)
Lemma quit_ends_session_witness :
  toLowerCase "QUIT" = "quit" /\
  connectToFileSystemServer (skipn 2 ["node"; "client.js"]) (fresh one_candidate_world)
  = (inr tt, connected one_candidate_world) /\
  fst (main ["node"; "client.js"] (["hello"] ++ "QUIT" :: ["never read"])
            (fresh one_candidate_world))
  = Exited 0.
Proof.
  assert (H1 : toLowerCase "QUIT" = "quit") by reflexivity.
  split; [exact H1|]. split; [reflexivity|].
  destruct (quit_ends_session "QUIT" ["hello"] ["never read"] ["node"; "client.js"]
              (fresh one_candidate_world) H1) as (_ & _ & Hconnected & _).
  destruct (Hconnected (connected one_candidate_world) eq_refl)
    as (st2 & _ & _ & Hmain).
  rewrite Hmain. reflexivity.
Defined.

(** Arguments that are not JSON: no call to the tool server, the error
    text of the parser as the answer. *)
Lemma malformed_arguments_abort_query_witness :
  this_tools (connected broken_world) = Some registry /\
  calls (snd (processQuery weather_query (connected broken_world)))
  = calls (connected broken_world)
      ++ EvChat (first_request registry weather_query) (inr ask_broken) :: [] /\
  all_calls ask_broken = [] ++ broken_call :: [beijing_call] /\
  JSON_parse (call_args_text broken_call) = inl SyntaxError /\
  exists e',
    fst (processQuery weather_query (connected broken_world))
    = inr ("Error: " ++ error_text e')%string /\
    e' = SyntaxError.
Proof.
  assert (H1 : this_tools (connected broken_world) = Some registry) by reflexivity.
  assert (H2 : calls (snd (processQuery weather_query (connected broken_world)))
               = calls (connected broken_world)
                   ++ EvChat (first_request registry weather_query) (inr ask_broken)
                   :: [])
    by (vm_compute; reflexivity).
  assert (H3 : all_calls ask_broken = [] ++ broken_call :: [beijing_call])
    by reflexivity.
  assert (H4 : JSON_parse (call_args_text broken_call) = inl SyntaxError)
    by reflexivity.
  split; [exact H1|]. split; [exact H2|]. split; [exact H3|]. split; [exact H4|].
  destruct (malformed_arguments_abort_query registry weather_query
              (connected broken_world) ask_broken [] broken_call [beijing_call]
              SyntaxError [] H1 H2 H3 H4)
    as (rs & tail & e' & Hanswer & _ & Hlen & _ & Hreached & _).
  exists e'. split; [exact Hanswer|].
  destruct rs as [|r rs]; [|cbn in Hlen; lia].
  now destruct (Hreached eq_refl).
Defined.


(** C6 as stated fails on replies without tool calls that are not one
    candidate: with two candidates the answer is both texts, joined by a
    newline, which is the text of neither; with no candidate the answer is
    the text of a TypeError. *)
Lemma several_candidates_without_tool_calls :
  all_calls {| choices := [reply (Some "Sunny.") None; reply (Some "Rainy.") None] |}
  = [] /\
  fst (processQuery weather_query (connected two_candidates_world))
  = inr ("Sunny." ++ newline ++ "Rainy.")%string /\
  ("Sunny." ++ newline ++ "Rainy.")%string <> "Sunny." /\
  ("Sunny." ++ newline ++ "Rainy.")%string <> "Rainy." /\
  all_calls {| choices := [] |} = [] /\
  fst (processQuery weather_query (connected no_candidate_world))
  = inr "Error: Cannot read properties of undefined (reading 'message')".
Proof.
  repeat split; try (vm_compute; reflexivity); intros H; discriminate H.
Qed.

(** C8 as stated fails on a tool advertised without description: the
    description of the CallableTool is missing too; it is not the empty
    string. *)
Lemma missing_description_stays_missing :
  tool_description undescribed = None /\
  fn_description (function (adapt_tool undescribed)) = None /\
  fn_description (function (adapt_tool undescribed)) <> Some EmptyString /\
  adapt [undescribed] = [adapt_tool undescribed].
Proof. repeat split. intros H; discriminate H. Qed.

(** C10 as stated fails when a call before the malformed one throws: the
    answer carries the message of that exception, not the message of the
    exception of the parser. *)
Lemma earlier_failure_hides_parse_exception :
  all_calls ask_then_broken = [beijing_call; broken_call] /\
  JSON_parse (call_args_text broken_call) = inl SyntaxError /\
  fst (processQuery weather_query (connected throws_before_broken_world))
  = inr "Error: Connection error." /\
  "Error: Connection error." <> ("Error: " ++ error_text SyntaxError)%string.
Proof.
  repeat split; try (vm_compute; reflexivity); intros H; discriminate H.
Qed.

End ScenarioRuns.

Section TeardownRuns.

Import Scenario Teardown.
#[local] Existing Instance scenario_JSON.
#[local] Existing Instance close_throws_Collaborators.

(** C9 as stated fails when [mcp.close()] throws: the line [QUIT] ends the
    loop, [cleanup] throws, [process.exit(0)] is not reached and the
    process ends with code 1. *)
Lemma quit_exits_with_code_1_when_close_throws :
  toLowerCase "QUIT" = "quit" /\
  chatLoop_while ["QUIT"] starting = (inr Quit, starting) /\
  fst (cleanup starting) = inl connection_error /\
  fst (main ["node"; "client.js"] ["QUIT"] starting) = Exited 1.
Proof. repeat split. Qed.

End TeardownRuns.

(** * The session and the process *)

Section SessionProperties.

Context {J : JSON} {C : Collaborators}.

(** ** The arguments of the file system server *)

(** The file system server is spawned on its script followed by at least
    one directory: the directories given, in their order, or, when none is
    given, the directory of MCP_FILESYSTEM_DIR when that is set and not
    empty and the working directory otherwise. *)
Theorem server_args_directories (allowedDirectories : list string) :
  exists dirs,
    dirs <> [] /\
    server_args allowedDirectories
    = path_join [process_cwd; "src"; "fileSystem.js"] :: dirs /\
    (allowedDirectories <> [] -> dirs = allowedDirectories) /\
    (allowedDirectories = [] ->
     dirs = [match env_MCP_FILESYSTEM_DIR with
             | Some (String c d) => String c d
             | _ => process_cwd
             end]).
Proof.
  destruct allowedDirectories as [|d ds]; cbn.
  - eexists. split; [|split; [reflexivity|split]].
    + discriminate.
    + intros H; contradiction.
    + intros _. now destruct env_MCP_FILESYSTEM_DIR as [[|c d]|].
  - exists (d :: ds). repeat split; discriminate.
Qed.

(** ** Connecting *)

(** A failed connection was made neither known to the loop nor to the
    record: only the world moved. *)
Lemma connection_failure_frame dirs st e st' :
  connectToFileSystemServer dirs st = (inl e, st') ->
  this_tools st' = this_tools st /\
  calls st' = calls st /\
  console st' = console st.
Proof.
  unfold connectToFileSystemServer, try_catch, bind, in_world, set_tools, throw.
  destruct (mcp_connect (server_args dirs) (world st)) as [[e1|[]] w1]; cbn.
  - intros H; inversion H; subst; cbn. now repeat split.
  - destruct (mcp_listTools w1) as [[e2|ts] w2]; cbn.
    + intros H; inversion H; subst; cbn. now repeat split.
    + discriminate.
Qed.


(** When [connect] and [listTools] return, the client holds the adapted
    tool list, and [processQuery] sends that list with its first
    completion. *)
Theorem connection_sets_registry dirs st w1 ts w2 query :
  mcp_connect (server_args dirs) (world st) = (inr tt, w1) ->
  mcp_listTools w1 = (inr ts, w2) ->
  exists st1,
    connectToFileSystemServer dirs st = (inr tt, st1) /\
    this_tools st1 = Some (adapt ts) /\
    world st1 = w2 /\ calls st1 = calls st /\ console st1 = console st /\
    exists reply rest,
      calls (snd (processQuery query st1))
      = calls st ++ EvChat (first_request (adapt ts) query) reply :: rest.
Proof.
  intros Hc Hl.
  set (st1 := {| world := w2; this_tools := Some (adapt ts);
                 calls := calls st; console := console st |}).
  exists st1. split.
  - unfold connectToFileSystemServer, try_catch, bind, in_world, set_tools.
    rewrite Hc. cbn. rewrite Hl. cbn. reflexivity.
  - do 4 (split; [reflexivity|]).
    destruct (processQuery_run (adapt ts) query st1 eq_refl)
      as (evs & out & st' & _ & Hevs & _ & _ & Hrun & Hq).
    rewrite Hq. cbn [snd]. rewrite Hevs.
    destruct (QueryRun_calls _ _ _ _ Hrun) as (reply & rs & tail & -> & _).
    now exists reply, (rounds_calls [user_message (Text query)] rs ++ tail).
Qed.

(** ** The calls of a query are bounded *)




(** ** One first completion and one printed line per query *)

Lemma first_requests_app (l1 l2 : list Event) :
  first_requests (l1 ++ l2) = first_requests l1 ++ first_requests l2.
Proof.
  induction l1 as [|ev l1 IH]; [reflexivity|].
  destruct ev as [req reply|n a reply]; cbn; [|exact IH].
  destruct (tools req); cbn; now rewrite IH.
Qed.

Lemma first_requests_rounds ms rs : first_requests (rounds_calls ms rs) = [].
Proof.
  revert ms. induction rs as [|r rs IH]; intros ms; cbn; auto.
Qed.

Lemma first_requests_query registry query evs out :
  QueryRun registry query evs out ->
  first_requests evs = [first_request registry query].
Proof.
  intros Hrun.
  destruct (QueryRun_calls _ _ _ _ Hrun) as (reply & rs & tail & -> & _ & Htail).
  cbn. rewrite first_requests_app, first_requests_rounds. cbn. f_equal.
  destruct Htail as [-> | (tc & e & Hint)]; [reflexivity|].
  apply Interrupt_shape in Hint.
  destruct Hint as [-> | [(a & _ & ->) | (a & res & rep & _ & -> & _)]]; reflexivity.
Qed.

(** On a connected client the session loop asks one first completion for
    each line it handles as a query, in the order of the lines; each is
    asked on a transcript of one message, the line itself, whatever the
    queries before it were, and with the tool list the client was
    connected with, which the loop leaves in place. *)
Theorem queries_start_from_fresh_transcripts registry lines st :
  this_tools st = Some registry ->
  exists r st' evs,
    chatLoop_while lines st = (inr r, st') /\
    calls st' = calls st ++ evs /\
    first_requests evs = map (first_request registry) (handled lines) /\
    this_tools st' = Some registry.
Proof.
  revert st. induction lines as [|l lines IH]; intros st Htools.
  - exists AtPrompt, st, []. cbn. now rewrite app_nil_r.
  - cbn [chatLoop_while handled].
    change (toLowerCase l =? "quit")%string with (is_quit l).
    destruct (is_quit l).
    + exists Quit, st, []. cbn. now rewrite app_nil_r.
    + destruct (processQuery_run registry l st Htools)
        as (evs & out & st1 & _ & Hevs & Ht & Hc & Hrun & Hq).
      unfold bind at 1. unfold try_catch, bind at 1. rewrite Hq.
      cbn [console_log].
      match goal with
      | |- context [chatLoop_while lines ?s] => set (st2 := s)
      end.
      destruct (IH st2) as (r & st' & evs2 & Hloop & Hevs2 & Hfirst & Ht2).
      { cbn. congruence. }
      exists r, st', (evs ++ evs2). repeat split.
      * exact Hloop.
      * rewrite Hevs2. cbn. now rewrite Hevs, <- app_assoc.
      * rewrite first_requests_app, Hfirst.
        now rewrite (first_requests_query _ _ _ _ Hrun).
      * exact Ht2.
Qed.



(** ** The exits of main *)

(** When the connection fails, [main] starts no session: nothing is
    printed by the loop and no call is made; [cleanup] still runs, and the
    process exits with code 0 when it returns and with code 1 when it
    throws. *)
Theorem main_after_failed_connection argv lines st e st1 :
  connectToFileSystemServer (skipn 2 argv) st = (inl e, st1) ->
  main argv lines st
  = (match fst (cleanup st1) with
     | inr _ => Exited 0
     | inl _ => Exited 1
     end, snd (cleanup st1)) /\
  calls (snd (main argv lines st)) = calls st /\
  console (snd (main argv lines st)) = console st.
Proof.
  intros Hconn.
  destruct (connection_failure_frame _ _ _ _ Hconn) as (_ & Hcalls & Hcons).
  assert (Hmain : main argv lines st
                  = (match fst (cleanup st1) with
                     | inr _ => Exited 0
                     | inl _ => Exited 1
                     end, snd (cleanup st1))).
  { unfold main, bind at 1. rewrite Hconn.
    destruct (cleanup st1) as [[e'|u] st2]; reflexivity. }
  split; [exact Hmain|]. rewrite Hmain. cbn [snd].
  unfold cleanup, in_world. destruct (mcp_close (world st1)) as [r w].
  cbn. now split.
Qed.


(** ** The sentinel *)

Lemma lower_ascii_cases (c target : ascii) :
  lower_ascii c = target ->
  c = target \/ (nat_of_ascii c + 32 = nat_of_ascii target)%nat.
Proof.
  unfold lower_ascii.
  destruct ((65 <=? nat_of_ascii c)%nat && (nat_of_ascii c <=? 90)%nat) eqn:Hup.
  - intros <-. right. rewrite nat_ascii_embedding; [reflexivity|].
    apply andb_prop in Hup. destruct Hup as [_ Hle].
    apply Nat.leb_le in Hle. lia.
  - now left.
Qed.

Lemma ascii_of_code (c : ascii) (n : nat) :
  nat_of_ascii c = n -> c = ascii_of_nat n.
Proof. intros <-. now rewrite ascii_nat_embedding. Qed.

(** A line ends the session exactly when it is one of the sixteen ways of
    writing quit in upper and lower case letters: a line with a space
    before or after the word, or any other line, is handled as a query. *)
Theorem sentinel_is_a_casing_of_quit (line : string) :
  is_quit line = true <-> In line sentinel_casings.
Proof.
  unfold is_quit. split.
  - intros H. apply String.eqb_eq in H.
    destruct line as [|c1 [|c2 [|c3 [|c4 [|c5 rest]]]]]; cbn in H; try discriminate.
    injection H as H1 H2 H3 H4.
    apply lower_ascii_cases in H1, H2, H3, H4.
    assert (E1 : c1 = "q"%char \/ c1 = "Q"%char).
    { destruct H1 as [-> | H1]; [now left | right].
      apply ascii_of_code with (n := 81). cbn in H1. lia. }
    assert (E2 : c2 = "u"%char \/ c2 = "U"%char).
    { destruct H2 as [-> | H2]; [now left | right].
      apply ascii_of_code with (n := 85). cbn in H2. lia. }
    assert (E3 : c3 = "i"%char \/ c3 = "I"%char).
    { destruct H3 as [-> | H3]; [now left | right].
      apply ascii_of_code with (n := 73). cbn in H3. lia. }
    assert (E4 : c4 = "t"%char \/ c4 = "T"%char).
    { destruct H4 as [-> | H4]; [now left | right].
      apply ascii_of_code with (n := 84). cbn in H4. lia. }
    destruct E1 as [-> | ->], E2 as [-> | ->], E3 as [-> | ->], E4 as [-> | ->];
      cbn; tauto.
  - intros H. cbn in H.
    repeat (destruct H as [<- | H]; [reflexivity|]). contradiction.
Qed.

(** ** The busy indicator *)

Lemma spinner_ticks_from message n : forall i,
  i < length frames ->
  snd (spinner_ticks message n i) = (i + n) mod length frames /\
  length (fst (spinner_ticks message n i)) = n /\
  forall k, k < n ->
    exists frame,
      nth_error frames ((i + k) mod length frames) = Some frame /\
      nth_error (fst (spinner_ticks message n i)) k
      = Some (carriage_return ++ frame ++ " " ++ message)%string.
Proof.
  induction n as [|n IH]; intros i Hi.
  - cbn [spinner_ticks fst snd]. rewrite Nat.add_0_r.
    rewrite Nat.mod_small by exact Hi. repeat split. intros k Hk. lia.
  - cbn [spinner_ticks]. unfold spinner_tick.
    destruct (spinner_ticks message n ((i + 1) mod length frames))
      as [rest last] eqn:Hrest.
    assert (Hnext : (i + 1) mod length frames < length frames)
      by (apply Nat.mod_upper_bound; cbn; discriminate).
    specialize (IH _ Hnext). rewrite Hrest in IH. cbn [fst snd] in IH |- *.
    destruct IH as (Hlast & Hlen & Hout).
    repeat split.
    + rewrite Hlast. rewrite Nat.Div0.add_mod_idemp_l. f_equal. lia.
    + cbn. now rewrite Hlen.
    + intros [|k] Hk.
      * rewrite Nat.add_0_r, Nat.mod_small by exact Hi. cbn [nth_error].
        unfold frame_text.
        destruct (nth_error frames i) as [frame|] eqn:Hf.
        -- now exists frame.
        -- apply nth_error_None in Hf. lia.
      * destruct (Hout k) as (frame & Hf & Hk'); [lia|].
        exists frame. split; [|exact Hk'].
        rewrite Nat.Div0.add_mod_idemp_l in Hf.
        now replace (i + S k) with (i + 1 + k) by lia.
Qed.

(** The busy indicator never leaves its ten frames: started on the index
    0, after any number of runs the index is the number of runs modulo
    ten, and the k-th text written is the carriage return, the frame
    number k modulo ten, a space and the message. *)
Theorem spinner_stays_in_frames message n :
  snd (spinner_ticks message n 0) = n mod 10 /\
  length (fst (spinner_ticks message n 0)) = n /\
  forall k, k < n ->
    exists frame,
      nth_error frames (k mod 10) = Some frame /\
      nth_error (fst (spinner_ticks message n 0)) k
      = Some (carriage_return ++ frame ++ " " ++ message)%string.
Proof.
  destruct (spinner_ticks_from message n 0) as (H1 & H2 & H3); [cbn; lia|].
  repeat split; [exact H1 | exact H2 | exact H3].
Qed.

End SessionProperties.

(** * The weather server: validation, request, reply *)

Section WeatherProperties.

Context {W : Seniverse}.

(** ** The schema of the request parameters *)

Lemma z_string_accepts path v s :
  z_string path v = inr s <-> v = Some (VString s).
Proof.
  unfold z_string. destruct v as [[s'|n|]|]; split; intros H;
    inversion H; subst; reflexivity.
Qed.

Lemma existsb_eqb_In (s : string) (allowed : list string) :
  existsb (String.eqb s) allowed = true <-> In s allowed.
Proof.
  rewrite existsb_exists. split.
  - intros (x & Hin & Heq). apply String.eqb_eq in Heq. now subst.
  - intros Hin. exists s. split; [exact Hin | apply String.eqb_refl].
Qed.

Lemma z_enum_default_accepts path allowed d v s :
  z_enum_default path allowed d v = inr s <->
  (v = None /\ s = d) \/ (v = Some (VString s) /\ In s allowed).
Proof.
  unfold z_enum_default. destruct v as [[s'|n|]|].
  - destruct (existsb (String.eqb s') allowed) eqn:He.
    + apply existsb_eqb_In in He. split.
      * intros H; inversion H; subst. now right.
      * intros [[H _] | [H _]]; inversion H; subst. reflexivity.
    + split; [discriminate|].
      intros [[H _] | [H Hin]]; inversion H; subst.
      apply existsb_eqb_In in Hin. congruence.
  - split; [discriminate|]. intros [[H _] | [H _]]; discriminate.
  - split; [discriminate|]. intros [[H _] | [H _]]; discriminate.
  - split.
    + intros H; inversion H. now left.
    + intros [[_ ->] | [H _]]; [reflexivity | discriminate].
Qed.

Lemma z_number_start_accepts v n :
  z_number_default "start" [IsInt; Min 0] (Integer 0) v = inr n <->
  (v = None /\ n = Integer 0) \/
  (exists z, v = Some (VNumber (Integer z)) /\ (0 <= z)%Z /\ n = Integer z).
Proof.
  unfold z_number_default, z_number. destruct v as [[s|[z|b| |neg]|]|]; cbn.
  - split; [discriminate|]. intros [[H _] | (z & H & _)]; discriminate.
  - destruct (0 <=? z)%Z eqn:Hz; cbn.
    + apply Z.leb_le in Hz. split.
      * intros H; inversion H; subst. right. now exists z.
      * intros [[H _] | (z' & H & _ & ->)]; inversion H; subst. reflexivity.
    + apply Z.leb_gt in Hz. split; [discriminate|].
      intros [[H _] | (z' & H & Hle & _)]; inversion H; subst. lia.
  - split.
    + destruct (0 <=? b)%Z; discriminate.
    + intros [[H _] | (z & H & _)]; discriminate.
  - split; [discriminate|]. intros [[H _] | (z & H & _)]; discriminate.
  - split.
    + destruct neg; discriminate.
    + intros [[H _] | (z & H & _)]; discriminate.
  - split; [discriminate|]. intros [[H _] | (z & H & _)]; discriminate.
  - split.
    + intros H; inversion H. now left.
    + intros [[_ ->] | (z & H & _)]; [reflexivity | discriminate].
Qed.

Lemma z_number_days_accepts v d :
  z_number_optional "days" [IsInt; Min 1; Max 7] v = inr d <->
  (v = None /\ d = None) \/
  (exists z, v = Some (VNumber (Integer z)) /\ (1 <= z <= 7)%Z /\
             d = Some (Integer z)).
Proof.
  unfold z_number_optional, z_number. destruct v as [[s|[z|b| |neg]|]|]; cbn.
  - split; [discriminate|]. intros [[H _] | (z & H & _)]; discriminate.
  - destruct (1 <=? z)%Z eqn:H1, (z <=? 7)%Z eqn:H7; cbn;
      try apply Z.leb_le in H1; try apply Z.leb_le in H7;
      try apply Z.leb_gt in H1; try apply Z.leb_gt in H7.
    + split.
      * intros H; inversion H; subst. right. exists z. repeat split; assumption.
      * intros [[H _] | (z' & H & _ & ->)]; inversion H; subst. reflexivity.
    + split; [discriminate|].
      intros [[H _] | (z' & H & Hle & _)]; inversion H; subst. lia.
    + split; [discriminate|].
      intros [[H _] | (z' & H & Hle & _)]; inversion H; subst. lia.
    + split; [discriminate|].
      intros [[H _] | (z' & H & Hle & _)]; inversion H; subst. lia.
  - split.
    + destruct (1 <=? b)%Z, (b <? 7)%Z; discriminate.
    + intros [[H _] | (z & H & _)]; discriminate.
  - split; [discriminate|]. intros [[H _] | (z & H & _)]; discriminate.
  - split.
    + destruct neg; discriminate.
    + intros [[H _] | (z & H & _)]; discriminate.
  - split; [discriminate|]. intros [[H _] | (z & H & _)]; discriminate.
  - split.
    + intros H; inversion H. now left.
    + intros [[_ ->] | (z & H & _)]; [reflexivity | discriminate].
Qed.

(** The validation returns the parameters exactly when every property
    does. *)
Lemma WeatherApiParams_parse_accepts p v :
  WeatherApiParams_parse p = inr v <->
  z_string "key" (raw_key p) = inr (api_key v) /\
  z_string "location" (raw_location p) = inr (api_location v) /\
  z_enum_default "language" languages "zh-Hans" (raw_language p)
  = inr (api_language v) /\
  z_enum_default "unit" units "c" (raw_unit p) = inr (api_unit v) /\
  z_number_default "start" [IsInt; Min 0] (Integer 0) (raw_start p)
  = inr (api_start v) /\
  z_number_optional "days" [IsInt; Min 1; Max 7] (raw_days p) = inr (api_days v).
Proof.
  unfold WeatherApiParams_parse.
  destruct (z_string "key" (raw_key p)) as [i1|k];
  destruct (z_string "location" (raw_location p)) as [i2|l];
  destruct (z_enum_default "language" languages "zh-Hans" (raw_language p)) as [i3|la];
  destruct (z_enum_default "unit" units "c" (raw_unit p)) as [i4|u];
  destruct (z_number_default "start" [IsInt; Min 0] (Integer 0) (raw_start p)) as [i5|st];
  destruct (z_number_optional "days" [IsInt; Min 1; Max 7] (raw_days p)) as [i6|d];
  (split; [ intros H; try discriminate H; inversion H; subst; cbn; now repeat split
          | intros (H1 & H2 & H3 & H4 & H5 & H6); try discriminate;
            inversion H1; inversion H2; inversion H3; inversion H4;
            inversion H5; inversion H6; destruct v; cbn in *; congruence ]).
Qed.

(** [buildWeatherApiUrl] builds a URL exactly when [key] and [location]
    are strings, [language] and [unit] are absent or one of their choices,
    [start] is absent or an integer that is at least 0, and [days] is
    absent or an integer from 1 to 7; for every other parameter object it
    reports the failed validation. *)
Theorem buildWeatherApiUrl_accepts (p : RawParams) :
  (exists url, buildWeatherApiUrl p = UrlBuilt url) <->
  (exists key, raw_key p = Some (VString key)) /\
  (exists location, raw_location p = Some (VString location)) /\
  (raw_language p = None \/
   exists s, raw_language p = Some (VString s) /\ In s languages) /\
  (raw_unit p = None \/ exists s, raw_unit p = Some (VString s) /\ In s units) /\
  (raw_start p = None \/
   exists z, raw_start p = Some (VNumber (Integer z)) /\ (0 <= z)%Z) /\
  (raw_days p = None \/
   exists z, raw_days p = Some (VNumber (Integer z)) /\ (1 <= z <= 7)%Z).
Proof.
  unfold buildWeatherApiUrl. split.
  - intros (url & H).
    destruct (WeatherApiParams_parse p) as [issues|v] eqn:Hp; [discriminate|].
    apply WeatherApiParams_parse_accepts in Hp.
    destruct Hp as (H1 & H2 & H3 & H4 & H5 & H6).
    apply z_string_accepts in H1, H2.
    apply z_enum_default_accepts in H3, H4.
    apply z_number_start_accepts in H5. apply z_number_days_accepts in H6.
    repeat match goal with |- _ /\ _ => split end.
    + eauto.
    + eauto.
    + destruct H3 as [[H3 _] | H3]; eauto.
    + destruct H4 as [[H4 _] | H4]; eauto.
    + destruct H5 as [[H5 _] | (z & H5 & Hz & _)]; eauto.
    + destruct H6 as [[H6 _] | (z & H6 & Hz & _)]; eauto.
  - intros ((k & H1) & (l & H2) & H3 & H4 & H5 & H6).
    assert (Hv : exists v, WeatherApiParams_parse p = inr v).
    { assert (E3 : exists la, z_enum_default "language" languages "zh-Hans"
                                (raw_language p) = inr la).
      { destruct H3 as [H3 | (s & H3 & Hin)].
        - exists "zh-Hans". apply z_enum_default_accepts. now left.
        - exists s. apply z_enum_default_accepts. now right. }
      assert (E4 : exists u, z_enum_default "unit" units "c" (raw_unit p) = inr u).
      { destruct H4 as [H4 | (s & H4 & Hin)].
        - exists "c". apply z_enum_default_accepts. now left.
        - exists s. apply z_enum_default_accepts. now right. }
      assert (E5 : exists n, z_number_default "start" [IsInt; Min 0] (Integer 0)
                               (raw_start p) = inr n).
      { destruct H5 as [H5 | (z & H5 & Hz)].
        - exists (Integer 0). apply z_number_start_accepts. now left.
        - exists (Integer z). apply z_number_start_accepts. right. now exists z. }
      assert (E6 : exists d, z_number_optional "days" [IsInt; Min 1; Max 7]
                               (raw_days p) = inr d).
      { destruct H6 as [H6 | (z & H6 & Hz)].
        - exists None. apply z_number_days_accepts. now left.
        - exists (Some (Integer z)). apply z_number_days_accepts. right. now exists z. }
      destruct E3 as (la & E3), E4 as (u & E4), E5 as (n & E5), E6 as (d & E6).
      exists {| api_key := k; api_location := l; api_language := la;
                api_unit := u; api_start := n; api_days := d |}.
      apply WeatherApiParams_parse_accepts. cbn.
      repeat split; try assumption; now apply z_string_accepts. }
    destruct Hv as (v & ->). eauto.
Qed.

(** The URL that is built asks [/weather/daily.json] of the service with
    the parameters in the order key, location, language, unit, start,
    days; an absent language is zh-Hans, an absent unit c, an absent start
    0, and absent days are left out. *)
Theorem buildWeatherApiUrl_query (p : RawParams) (url : string) :
  buildWeatherApiUrl p = UrlBuilt url ->
  exists key location start,
    raw_key p = Some (VString key) /\
    raw_location p = Some (VString location) /\
    (raw_start p = None /\ start = 0%Z \/
     raw_start p = Some (VNumber (Integer start))) /\
    url = ("https://api.seniverse.com/v3/weather/daily.json?"
             ++ URLSearchParams_toString
                  ([ ("key", key);
                     ("location", location);
                     ("language", match raw_language p with
                                  | Some (VString s) => s
                                  | _ => "zh-Hans"
                                  end);
                     ("unit", match raw_unit p with
                              | Some (VString s) => s
                              | _ => "c"
                              end);
                     ("start", Number_toString (Integer start)) ]
                   ++ match raw_days p with
                      | Some (VNumber d) => [("days", Number_toString d)]
                      | _ => []
                      end))%string.
Proof.
  unfold buildWeatherApiUrl.
  destruct (WeatherApiParams_parse p) as [issues|v] eqn:Hp; [discriminate|].
  intros H; inversion H; subst url; clear H.
  apply WeatherApiParams_parse_accepts in Hp.
  destruct Hp as (H1 & H2 & H3 & H4 & H5 & H6).
  apply z_string_accepts in H1, H2.
  apply z_enum_default_accepts in H3, H4.
  apply z_number_start_accepts in H5. apply z_number_days_accepts in H6.
  assert (Hstart : exists start,
            (raw_start p = None /\ start = 0%Z \/
             raw_start p = Some (VNumber (Integer start))) /\
            api_start v = Integer start).
  { destruct H5 as [[H5 ->] | (z & H5 & _ & ->)].
    - exists 0%Z. split; [now left | reflexivity].
    - exists z. split; [now right | reflexivity]. }
  destruct Hstart as (start & Hstart & Hs).
  exists (api_key v), (api_location v), start.
  repeat match goal with |- _ /\ _ => split end; try assumption.
  unfold query_pairs, SENIVERSE_API_BASE. rewrite Hs.
  assert (El : match raw_language p with
               | Some (VString s) => s
               | _ => "zh-Hans"
               end = api_language v).
  { destruct H3 as [[-> ->] | [-> _]]; reflexivity. }
  assert (Eu : match raw_unit p with
               | Some (VString s) => s
               | _ => "c"
               end = api_unit v).
  { destruct H4 as [[-> ->] | [-> _]]; reflexivity. }
  assert (Ed : match raw_days p with
               | Some (VNumber d) => [("days", Number_toString d)]
               | _ => []
               end = match api_days v with
                     | Some d => [("days", Number_toString d)]
                     | None => []
                     end).
  { destruct H6 as [[-> ->] | (z & -> & _ & ->)]; reflexivity. }
  rewrite El, Eu, Ed. reflexivity.
Qed.

(** ** The request to the weather service *)

(** [makeSeniverseRequest] sends one request, to the URL it is given and
    with the two headers, and returns the data exactly when [fetch]
    resolved, the status was ok and the body was read as JSON; in every
    other case it returns null. *)
Theorem makeSeniverseRequest_outcome url st :
  requests (snd (makeSeniverseRequest url st))
  = requests st ++ [(url, request_headers)] /\
  forall data,
    fst (makeSeniverseRequest url st) = Some data <->
    exists response,
      fst (fetch url request_headers (server_world st)) = inr response /\
      ok response = true /\ response_json response = inr data.
Proof.
  unfold makeSeniverseRequest.
  destruct (fetch url request_headers (server_world st)) as [[e|response] w].
  - split; [reflexivity|]. intros data. cbn. split; [discriminate|].
    intros (r & H & _). discriminate.
  - destruct (ok response) eqn:Hok; cbn.
    + destruct (response_json response) as [e|data'] eqn:Hj; cbn.
      * split; [reflexivity|]. intros data. split; [discriminate|].
        intros (r & H & _ & Hr). inversion H; subst. congruence.
      * split; [reflexivity|]. intros data. split.
        -- intros H; inversion H; subst. now exists response.
        -- intros (r & H & _ & Hr). inversion H; subst. congruence.
    + split; [reflexivity|]. intros data. split; [discriminate|].
      intros (r & H & Hr & _). inversion H; subst. congruence.
Qed.

(** ** The handler of get-weather *)

Lemma apiParams_accepted (a : WeatherArgs) :
  tool_schema_admits a ->
  (exists url, buildWeatherApiUrl (apiParams a) = UrlBuilt url) <->
  isInteger (arg_days a) = true.
Proof.
  intros (Hmin & Hmax & Hl & Hu).
  rewrite buildWeatherApiUrl_accepts. cbn. split.
  - intros (_ & _ & _ & _ & _ & [H | (z & H & _)]); [discriminate|].
    inversion H as [Hd]. now rewrite Hd.
  - intros Hint. destruct (arg_days a) as [z| | |] eqn:Hd; try discriminate.
    cbn in Hmin, Hmax. apply Z.leb_le in Hmin, Hmax.
    repeat match goal with |- _ /\ _ => split end; eauto.
    right. exists 0%Z. split; [reflexivity | lia].
Qed.

(** For arguments the schema of the tool admits, the handler sends a
    request exactly when [days] is an integer: a number of days that is
    not an integer, which the schema of the tool lets through, is refused
    by the validation of the URL, and the reply is the text of the failed
    validation, no request being sent.  For an integer the one request
    goes to the URL of the city, the language, the unit, the start 0 and
    the days. *)
Theorem get_weather_request (a : WeatherArgs) (st : ServerState) :
  tool_schema_admits a ->
  (isInteger (arg_days a) = false ->
   exists issues,
     get_weather a st
     = (inr (text_reply (validation_failed ++ ZodError_message issues)%string), st)) /\
  (isInteger (arg_days a) = true ->
   requests (snd (get_weather a st))
   = requests st
       ++ [(("https://api.seniverse.com/v3/weather/daily.json?"
               ++ URLSearchParams_toString
                    [ ("key", API_KEY);
                      ("location", arg_city a);
                      ("language", arg_language a);
                      ("unit", arg_unit a);
                      ("start", Number_toString (Integer 0));
                      ("days", Number_toString (arg_days a)) ])%string,
            request_headers)]).
Proof.
  intros Hschema. split; intros Hint.
  - unfold get_weather.
    destruct (buildWeatherApiUrl (apiParams a)) as [url|error] eqn:Hb.
    + assert (H : isInteger (arg_days a) = true)
        by (apply (apiParams_accepted a Hschema); eauto).
      congruence.
    + unfold buildWeatherApiUrl in Hb.
      destruct (WeatherApiParams_parse (apiParams a)) as [issues|v]; [|discriminate].
      inversion Hb; subst. now exists issues.
  - apply (apiParams_accepted a Hschema) in Hint. destruct Hint as (url & Hb).
    unfold get_weather. rewrite Hb.
    destruct (buildWeatherApiUrl_query _ _ Hb)
      as (key & location & start & Hk & Hl & Hs & ->).
    cbn in Hk, Hl, Hs. inversion Hk; inversion Hl; subst key location.
    destruct Hs as [[Hs _] | Hs]; [discriminate|]. inversion Hs; subst start.
    cbn [apiParams raw_language raw_unit raw_days].
    match goal with
    | |- context [makeSeniverseRequest ?u st] =>
        pose proof (makeSeniverseRequest_outcome u st) as [Hreq _];
        destruct (makeSeniverseRequest u st) as [[data|] st1]
    end; cbn [snd] in Hreq.
    + destruct (results data) as [[|result rest]|]; try exact Hreq.
      destruct (r_daily result) as [[|d ds]|]; try exact Hreq.
      destruct (r_location result); exact Hreq.
    + exact Hreq.
Qed.

(** On every answer of the shape of [WeatherData], and when the request
    fails, the handler sends at most one request; when it returns, its
    content is one block of type text; and it throws only the TypeError of
    reading the name of a place that the first result does not have. *)
Theorem get_weather_replies (a : WeatherArgs) (st : ServerState) :
  (requests (snd (get_weather a st)) = requests st \/
   exists url, requests (snd (get_weather a st))
               = requests st ++ [(url, request_headers)]) /\
  (forall blocks, fst (get_weather a st) = inr blocks ->
     exists text, blocks = [{| block_type := "text"; block_text := text |}]) /\
  (forall e, fst (get_weather a st) = inl e -> e = TypeError_undefined_name).
Proof.
  unfold get_weather.
  destruct (buildWeatherApiUrl (apiParams a)) as [url|error].
  - pose proof (makeSeniverseRequest_outcome url st) as [Hreq _].
    destruct (makeSeniverseRequest url st) as [[data|] st1]; cbn [snd] in Hreq.
    + destruct (results data) as [[|result rest]|];
        try (cbn [fst snd]; repeat split; [right; eauto | intros b H; inversion H; subst; eexists; reflexivity
                                | intros e H; discriminate]).
      destruct (r_daily result) as [[|d ds]|];
        try (cbn [fst snd]; repeat split; [right; eauto | intros b H; inversion H; subst; eexists; reflexivity
                                | intros e H; discriminate]).
      destruct (r_location result); cbn [fst snd]; repeat split; eauto.
      * intros b H; inversion H; subst; eexists; reflexivity.
      * intros e H; discriminate.
      * intros b H; discriminate.
      * intros e H; now inversion H.
    + cbn [fst snd]. repeat split; [right; eauto | intros b H; inversion H; subst; eexists; reflexivity
                         | intros e H; discriminate].
  - cbn [fst snd]. repeat split; [now left | intros b H; inversion H; subst; eexists; reflexivity
                       | intros e H; discriminate].
Qed.

(** Of the results of the service only the first is read: two answers
    with the same first result give the same reply. *)
Theorem get_weather_reads_first_result (a : WeatherArgs) (st1 st2 : ServerState)
    url response1 response2 w1 w2 first others1 others2 :
  buildWeatherApiUrl (apiParams a) = UrlBuilt url ->
  fetch url request_headers (server_world st1) = (inr response1, w1) ->
  fetch url request_headers (server_world st2) = (inr response2, w2) ->
  ok response1 = true -> ok response2 = true ->
  response_json response1 = inr {| results := Some (first :: others1) |} ->
  response_json response2 = inr {| results := Some (first :: others2) |} ->
  fst (get_weather a st1) = fst (get_weather a st2).
Proof.
  intros Hb Hf1 Hf2 Hok1 Hok2 Hj1 Hj2.
  unfold get_weather, makeSeniverseRequest.
  rewrite Hb, Hf1, Hf2, Hok1, Hok2, Hj1, Hj2. cbn.
  destruct (r_daily first) as [[|d ds]|]; try reflexivity.
  destruct (r_location first); reflexivity.
Qed.

End WeatherProperties.

(** * MCPClient: starting without a server *)

Section MCPClientProperties.

Context {J : JSON} {C : Collaborators} {S : Spawn}.

(** [main] of index.js spawns nothing in two cases.  With fewer than three
    entries in [process.argv] it prints the usage and ends with code 0,
    [cleanup] not being called.  With a script whose name ends neither in
    .js nor in .py no session is started and nothing is handed to the
    transport: [cleanup] runs on the client as it was, and the process
    exits with code 0 when [cleanup] returns and with code 1 when it
    throws. *)
Theorem MCPClient_main_without_server argv lines st :
  ((length argv < 3)%nat ->
   MCPClient_main argv lines st
   = (Exited 0, {| world := world st; this_tools := this_tools st;
                   calls := calls st; console := console st ++ [usage] |})) /\
  ((3 <= length argv)%nat ->
   endsWith (nth 2 argv EmptyString) ".js" = false ->
   endsWith (nth 2 argv EmptyString) ".py" = false ->
   connectToServer (nth 2 argv EmptyString) st = (inl script_error, st) /\
   MCPClient_main argv lines st
   = (match fst (cleanup st) with
      | inr _ => Exited 0
      | inl _ => Exited 1
      end, snd (cleanup st))).
Proof.
  split.
  - intros Hlen. unfold MCPClient_main.
    apply Nat.ltb_lt in Hlen. now rewrite Hlen.
  - intros Hlen Hjs Hpy.
    assert (Hconn : connectToServer (nth 2 argv EmptyString) st
                    = (inl script_error, st)).
    { unfold connectToServer, try_catch. rewrite Hjs, Hpy. reflexivity. }
    split; [exact Hconn|].
    unfold MCPClient_main.
    assert (Hge : (length argv <? 3)%nat = false) by (apply Nat.ltb_ge; lia).
    rewrite Hge. unfold bind at 1. rewrite Hconn.
    destruct (cleanup st) as [[e|u] st2]; reflexivity.
Qed.

End MCPClientProperties.

(** * Runs of the session and of the weather server *)

Section SessionRuns.

Import Scenario.
#[local] Existing Instance scenario_JSON.
#[local] Existing Instance scenario_Collaborators.

(** Connecting a new client to the scripted server. *)
Lemma connection_sets_registry_witness :
  mcp_connect (server_args []) (world (fresh weather_world)) = (inr tt, weather_world) /\
  mcp_listTools weather_world = (inr [get_weather], weather_world) /\
  exists st1,
    connectToFileSystemServer [] (fresh weather_world) = (inr tt, st1) /\
    this_tools st1 = Some (adapt [get_weather]).
Proof.
  split; [reflexivity|]. split; [reflexivity|].
  destruct (connection_sets_registry [] (fresh weather_world) weather_world
              [get_weather] weather_world weather_query eq_refl eq_refl)
    as (st1 & Hconn & Htools & _).
  exists st1. split; [exact Hconn | exact Htools].
Defined.


(** Two queries and the sentinel: two first completions, each on its own
    line only. *)
Lemma queries_start_from_fresh_transcripts_witness :
  this_tools (connected two_candidates_world) = Some registry /\
  exists r st' evs,
    chatLoop_while ["first"; "second"; "QUIT"; "third"] (connected two_candidates_world)
    = (inr r, st') /\
    calls st' = calls (connected two_candidates_world) ++ evs /\
    first_requests evs
    = [first_request registry "first"; first_request registry "second"] /\
    this_tools st' = Some registry.
Proof.
  split; [reflexivity|].
  exact (queries_start_from_fresh_transcripts registry
           ["first"; "second"; "QUIT"; "third"] (connected two_candidates_world)
           eq_refl).
Defined.


End SessionRuns.

Section OutageRuns.

Import Scenario Outage.
#[local] Existing Instance scenario_JSON.
#[local] Existing Instance unreachable_Collaborators.


(** The tool server cannot be reached: [main] exits with code 0. *)
Lemma main_after_failed_connection_witness :
  connectToFileSystemServer (skipn 2 ["node"; "client.js"; "docs"]) new_client
  = (inl connection_error, new_client) /\
  main ["node"; "client.js"; "docs"] ["hello"; "quit"] new_client
  = (Exited 0, new_client).
Proof.
  assert (H : connectToFileSystemServer (skipn 2 ["node"; "client.js"; "docs"])
                new_client
              = (inl connection_error, new_client)) by reflexivity.
  split; [exact H|].
  destruct (main_after_failed_connection ["node"; "client.js"; "docs"]
              ["hello"; "quit"] new_client connection_error new_client H)
    as (Hmain & _).
  exact Hmain.
Defined.

End OutageRuns.

Section LaunchRuns.

Import Scenario Launch.
#[local] Existing Instance scenario_JSON.
#[local] Existing Instance scenario_Collaborators.
#[local] Existing Instance linux_Spawn.

Example MCPClient_main_runs_a_session :
  fst (MCPClient_main ["node"; "index.js"; "weather.js"] ["hello"; "quit"]
         (fresh one_candidate_world)) = Exited 0 /\
  console (snd (MCPClient_main ["node"; "index.js"; "weather.js"] ["hello"; "quit"]
                  (fresh one_candidate_world)))
  = MCPClient_banner ++ [(newline ++ "Sunny.")%string].
Proof. split; vm_compute; reflexivity. Qed.

Example MCPClient_main_refuses_a_shell_script :
  MCPClient_main ["node"; "index.js"; "weather.sh"] ["hello"; "quit"]
    (fresh one_candidate_world)
  = (Exited 0, fresh one_candidate_world).
Proof. vm_compute. reflexivity. Qed.

End LaunchRuns.

Section ServiceRuns.

Import Service.
#[local] Existing Instance scripted_Seniverse.

(** The URL of three days in Beijing. *)
Lemma buildWeatherApiUrl_query_witness :
  buildWeatherApiUrl (apiParams beijing_3) = UrlBuilt beijing_url /\
  exists key location start,
    raw_key (apiParams beijing_3) = Some (VString key) /\
    raw_location (apiParams beijing_3) = Some (VString location) /\
    (raw_start (apiParams beijing_3) = None /\ start = 0%Z \/
     raw_start (apiParams beijing_3) = Some (VNumber (Integer start))).
Proof.
  assert (H : buildWeatherApiUrl (apiParams beijing_3) = UrlBuilt beijing_url)
    by (vm_compute; reflexivity).
  split; [exact H|].
  destruct (buildWeatherApiUrl_query (apiParams beijing_3) beijing_url H)
    as (key & location & start & Hk & Hl & Hs & _).
  now exists key, location, start.
Defined.

(** Two days and a half are refused and nothing is requested. *)
Lemma get_weather_request_witness :
  tool_schema_admits beijing_2_and_a_half /\
  isInteger (arg_days beijing_2_and_a_half) = false /\
  exists issues,
    get_weather beijing_2_and_a_half (idle [inr (answer_with [beijing_result])])
    = (inr (text_reply (validation_failed ++ ZodError_message issues)%string),
       idle [inr (answer_with [beijing_result])]).
Proof.
  assert (H : tool_schema_admits beijing_2_and_a_half).
  { unfold tool_schema_admits. cbn. repeat split; auto. }
  split; [exact H|]. split; [reflexivity|].
  destruct (get_weather_request beijing_2_and_a_half
              (idle [inr (answer_with [beijing_result])]) H) as [Hrefused _].
  exact (Hrefused eq_refl).
Defined.

Example get_weather_three_days :
  requests (snd (get_weather beijing_3 (idle [inr (answer_with [beijing_result])])))
  = [(beijing_url, request_headers)].
Proof. vm_compute. reflexivity. Qed.

(** A second result of the service changes nothing. *)
Lemma get_weather_reads_first_result_witness :
  fst (get_weather beijing_3 (idle [inr (answer_with [beijing_result])]))
  = fst (get_weather beijing_3
           (idle [inr (answer_with [beijing_result; tianjin_result])])).
Proof.
  apply (get_weather_reads_first_result beijing_3
           (idle [inr (answer_with [beijing_result])])
           (idle [inr (answer_with [beijing_result; tianjin_result])])
           beijing_url
           (answer_with [beijing_result])
           (answer_with [beijing_result; tianjin_result])
           {| answers := [] |} {| answers := [] |}
           beijing_result [] [tianjin_result]);
    reflexivity.
Defined.

End ServiceRuns.
